(** * webscraper: the DOM diff and the fetch / cache / diff cycle

    A shallow embedding of [webscraper.py].  The program fetches a list of
    URLs, parses each page with BeautifulSoup, compares the parsed tree with
    the one parsed from the cached copy ([compare_html]), stores the new copy
    in the cache ([diff_url]) and writes the cache back to [cache.json] once
    all pages are done ([do_diff]).

    The collaborators the program calls but does not define (the HTML parser,
    the JSON text format, the HTTP client, the clock and the file system) are
    explicit: parsed trees are a data type, the parser and the JSON text
    format are interfaces with the laws the program relies on, the network
    and the clock are inputs, the cache file is a piece of state. *)

From Stdlib Require Import Ascii DecimalPos DecimalZ.
From stdpp Require Import gmap strings list fin_maps pretty.

Local Open Scope string_scope.
Local Open Scope list_scope.
Local Open Scope stdpp_scope.

(** ** Parsed documents

    A bs4 [Tag] has a name, a dictionary of attributes and an ordered list of
    contents; an item of the contents is a text node ([NavigableString]) or
    again a [Tag].  A text node is kept as its characters: that is all [==]
    and [findChildren] look at, also for the subclasses of [NavigableString]
    such as [Comment].  The value of an attribute is a string, or a list of
    strings for the multi-valued attributes such as [class]. *)

Inductive attr_value :=
  | AttrStr (s : string)
  | AttrList (l : list string).

Global Instance attr_value_eq_dec : EqDecision attr_value.
Proof. solve_decision. Defined.

#[warnings="-register-all"]
Inductive Tag :=
  mkTag (name : string) (attrs : gmap string attr_value)
        (contents : list (string + Tag)).

(** A text node is [inl s], an element is [inr t]. *)
Definition PageElement : Type := string + Tag.

Definition tag_name (t : Tag) : string := let 'mkTag n _ _ := t in n.
Definition tag_attrs (t : Tag) : gmap string attr_value := let 'mkTag _ a _ := t in a.
Definition tag_contents (t : Tag) : list PageElement := let 'mkTag _ _ cs := t in cs.

(** The elements among a list of contents, in document order. *)
Definition tags_of (cs : list PageElement) : list Tag :=
  omap (λ c, match c with inr t => Some t | inl _ => None end) cs.

(** [t.findChildren(recursive=False)]: with no filter [find_all] keeps the
    items of [t.children] that are [Tag]s and drops the text nodes. *)
Definition findChildren (t : Tag) : list Tag := tags_of (tag_contents t).

(** [Tag.__eq__]: same name, same attributes, contents of the same length
    that are pairwise equal.  Text nodes compare as strings, and a text node
    is never equal to a [Tag]. *)
Fixpoint contents_eqb (tag_eqb : Tag → Tag → bool)
    (xs ys : list PageElement) : bool :=
  match xs, ys with
  | [], [] => true
  | inl s :: xs', inl s' :: ys' => bool_decide (s = s') && contents_eqb tag_eqb xs' ys'
  | inr t :: xs', inr t' :: ys' => tag_eqb t t' && contents_eqb tag_eqb xs' ys'
  | _, _ => false
  end.

Fixpoint Tag_eqb (a b : Tag) {struct a} : bool :=
  let 'mkTag na aa ca := a in
  let 'mkTag nb ab cb := b in
  bool_decide (na = nb) && bool_decide (aa = ab) && contents_eqb Tag_eqb ca cb.

(** Nesting depth of a tree: a tag without element children has height 0. *)
Fixpoint Tag_height (t : Tag) : nat :=
  let 'mkTag _ _ cs := t in
  (fix go (cs : list PageElement) : nat :=
     match cs with
     | [] => 0
     | inl _ :: cs' => go cs'
     | inr c :: cs' => S (Tag_height c) `max` go cs'
     end) cs.

(** Number of tags in a tree. *)
Fixpoint Tag_size (t : Tag) : nat :=
  let 'mkTag _ _ cs := t in
  S ((fix go (cs : list PageElement) : nat :=
        match cs with
        | [] => 0
        | inl _ :: cs' => go cs'
        | inr c :: cs' => Tag_size c + go cs'
        end) cs).

(** ** [compare_html] *)

Record DifferentiatingElement := mkDifferentiatingElement {
  old : Tag;
  new : Tag
}.

(** The loop [for old_child, new_child in zip(old_children, new_children):
    diff.extend(compare(old_child, new_child))], walking the contents of the
    old tag (whose text nodes [findChildren] skips) against the element
    children of the new tag.  [diff_children_zip] below shows it is the
    [flat_map] over the [zip] of the two child lists. *)
Fixpoint diff_children (compare : Tag → Tag → list DifferentiatingElement)
    (old_contents : list PageElement) (new_children : list Tag)
    : list DifferentiatingElement :=
  match old_contents with
  | [] => []
  | inl _ :: old_contents' => diff_children compare old_contents' new_children
  | inr old_child :: old_contents' =>
      match new_children with
      | [] => []
      | new_child :: new_children' =>
          compare old_child new_child
            ++ diff_children compare old_contents' new_children'
      end
  end.

Fixpoint compare_html (old_html new_html : Tag) {struct old_html}
    : list DifferentiatingElement :=
  if Tag_eqb old_html new_html then []
  else
    let diff :=
      diff_children compare_html (tag_contents old_html) (findChildren new_html) in
    match diff with
    | [] => [mkDifferentiatingElement old_html new_html]
    | _ :: _ => diff
    end.

(** The same function with the recursion depth made explicit: every call
    spends one unit of [fuel], and the recursive calls are made on the pairs
    of [zip(old_children, new_children)] exactly as in the source.  [None]
    means the fuel ran out before the call returned. *)
Fixpoint compare_html_fuel (fuel : nat) (old_html new_html : Tag)
    : option (list DifferentiatingElement) :=
  match fuel with
  | 0 => None
  | S fuel' =>
      if Tag_eqb old_html new_html then Some []
      else
        diffs ← mapM (λ p, compare_html_fuel fuel' p.1 p.2)
                  (zip (findChildren old_html) (findChildren new_html));
        let diff := concat diffs in
        Some (match diff with
              | [] => [mkDifferentiatingElement old_html new_html]
              | _ :: _ => diff
              end)
  end.

(** ** Positions in a document

    A [frame] is an element with one of its element children removed; a list
    of frames, outermost first, is a path from the root of a document down to
    a position, and [plug path t] is the document with [t] at that
    position. *)
Record frame := mkFrame {
  frame_name : string;
  frame_attrs : gmap string attr_value;
  frame_before : list PageElement;
  frame_after : list PageElement
}.

Definition fill (f : frame) (t : Tag) : Tag :=
  mkTag (frame_name f) (frame_attrs f) (frame_before f ++ inr t :: frame_after f).

Definition plug (path : list frame) (t : Tag) : Tag := foldr fill t path.

(** Two tags differ only in their text: same name, same attributes, the same
    element children in the same order, yet not the same tag. *)
Definition differ_in_text (t t' : Tag) : Prop :=
  tag_name t = tag_name t' ∧ tag_attrs t = tag_attrs t'
  ∧ findChildren t = findChildren t' ∧ t ≠ t'.

(** ** Sample documents

    [<p>s</p>] and [<div><p>A</p><p>s</p></div>], the documents of the
    nested-change scenario. *)
Definition p_elem (s : string) : Tag := mkTag "p" ∅ [inl s].

Definition div_doc (s : string) : Tag :=
  mkTag "div" ∅ [inr (p_elem "A"); inr (p_elem s)].

(** * The fetch / cache / diff cycle *)

(** ** Exceptions

    The Python exceptions the cycle can raise, and computations that return a
    value or raise one of them. *)
Inductive exception :=
  | FileNotFoundError   (* the file does not exist *)
  | PermissionError     (* the file exists and cannot be read *)
  | JSONDecodeError     (* json.loads on a text that is not JSON *)
  | RequestError        (* httpx: the request could not be completed *)
  | HTTPStatusError     (* httpx: raise_for_status on a non-success status *)
  | AttributeError      (* a method looked up on an object that lacks it *)
  | TypeError           (* an argument of the wrong type *)
  | ParserRejectedMarkup. (* bs4: html.parser gave up on the markup *)

Inductive result (A : Type) :=
  | Ok (a : A)
  | Raise (e : exception).
Global Arguments Ok {A} a.
Global Arguments Raise {A} e.

(** Sequencing: the first exception raised ends the computation. *)
Global Instance result_bind : MBind result := λ A B k r,
  match r with
  | Ok a => k a
  | Raise e => Raise e
  end.

(** ** JSON documents and the objects kept in the cache

    What [json.loads] returns: [None], a [bool], an [int], a [str], a [list]
    or a [dict] with string keys (floating-point numbers are left out). *)
#[warnings="-register-all"]
Inductive json :=
  | JNull
  | JBool (b : bool)
  | JNum (n : Z)
  | JStr (s : string)
  | JArr (items : list json)
  | JObj (fields : gmap string json).

Record CacheEntry := mkCacheEntry {
  html : string;
  timestamp : string
}.

(** A value of the cache dictionary: a value read from [cache.json], which
    [json.loads] returns as plain JSON data, or a [CacheEntry] object stored
    by [diff_url] during the running cycle. *)
Inductive cache_value :=
  | FromJson (j : json)
  | EntryObject (e : CacheEntry).

(** The object bound to [cache] in [do_diff]: a dictionary, or whatever other
    JSON document [cache.json] held ([NotADict] never holds a [JObj]). *)
Inductive cache_obj :=
  | CacheDict (m : gmap string cache_value)
  | NotADict (j : json).

Definition cache_of_json (j : json) : cache_obj :=
  match j with
  | JObj fields => CacheDict (FromJson <$> fields)
  | _ => NotADict j
  end.

(** [cache.get(url, {})]: only a dictionary has [get]. *)
Definition cache_get (cache : cache_obj) (url : string) : result cache_value :=
  match cache with
  | CacheDict m => Ok (default (FromJson (JObj ∅)) (m !! url))
  | NotADict _ => Raise AttributeError
  end.

(** [old_cache_entry.get(key, ...)], before the default is applied: a
    [CacheEntry] is a dataclass and has no [get], nor has any JSON value
    other than a dictionary. *)
Definition entry_get (entry : cache_value) (key : string) : result (option json) :=
  match entry with
  | FromJson (JObj fields) => Ok (fields !! key)
  | FromJson _ => Raise AttributeError
  | EntryObject _ => Raise AttributeError
  end.

(** [cache[url] = entry], once [cache.get] has succeeded. *)
Definition cache_set (cache : cache_obj) (url : string) (entry : CacheEntry) : cache_obj :=
  match cache with
  | CacheDict m => CacheDict (<[url := EntryObject entry]> m)
  | NotADict j => NotADict j
  end.

(** [dataclasses.asdict] on a [CacheEntry]. *)
Definition asdict (e : CacheEntry) : json :=
  JObj (<["html" := JStr (html e)]> (<["timestamp" := JStr (timestamp e)]> ∅)).

(** The objects of this program that [json] cannot serialise by itself. *)
Inductive pyobject :=
  | ObjDataclass (e : CacheEntry)
  | ObjDatetime (isoformat : string).

(** [EnhancedJSONEncoder.default].  Its last line, [super().default(o)],
    raises [TypeError] for any other object; the cache holds none. *)
Definition EnhancedJSONEncoder_default (o : pyobject) : json :=
  match o with
  | ObjDataclass e => asdict e
  | ObjDatetime isoformat => JStr isoformat
  end.

(** What the encoder makes of the cache before it is written as text: JSON
    data is kept, a [CacheEntry] goes through [default]. *)
Definition encode_value (v : cache_value) : json :=
  match v with
  | FromJson j => j
  | EntryObject e => EnhancedJSONEncoder_default (ObjDataclass e)
  end.

Definition encode_cache (cache : cache_obj) : json :=
  match cache with
  | CacheDict m => JObj (encode_value <$> m)
  | NotADict j => j
  end.

(** The content and the timestamp a cache value holds for its URL. *)
Definition value_html (v : cache_value) : option json :=
  match v with
  | FromJson (JObj fields) => fields !! "html"
  | FromJson _ => None
  | EntryObject e => Some (JStr (html e))
  end.

Definition value_timestamp (v : cache_value) : option json :=
  match v with
  | FromJson (JObj fields) => fields !! "timestamp"
  | FromJson _ => None
  | EntryObject e => Some (JStr (timestamp e))
  end.

(** ** The network, the clock and the cache file *)

Record Response := mkResponse {
  status_code : Z;
  text : string
}.

(** [response.is_success]: a 2xx status. *)
Definition is_success (r : Response) : bool :=
  bool_decide (200 ≤ status_code r < 300)%Z.

Definition raise_for_status (r : Response) : result Response :=
  if is_success r then Ok r else Raise HTTPStatusError.

(** The world a cycle runs in: what [client.get(url, follow_redirects=True)]
    answers for each URL, and the successive readings of
    [datetime.now().isoformat()]. *)
Record Env := mkEnv {
  client_get : string → result Response;
  now_isoformat : nat → string
}.

(** The fetch of a URL fails: the request raises, or the status of the
    response is not a success. *)
Definition fetch_fails (env : Env) (url : string) : Prop :=
  match client_get env url with
  | Ok r => is_success r = false
  | Raise _ => True
  end.

(** [order] resumes each of the tasks of [urls] once. *)
Definition schedule (urls : list string) (order : list nat) : Prop :=
  order ≡ₚ seq 0 (length urls).

(** [cache.json] as the process sees it. *)
Inductive file :=
  | Missing
  | Unreadable
  | Content (s : string).

Definition read_text (f : file) : result string :=
  match f with
  | Missing => Raise FileNotFoundError
  | Unreadable => Raise PermissionError
  | Content s => Ok s
  end.

(** [old_timestamp]: [datetime.min] when the entry has no timestamp. *)
Inductive old_time :=
  | datetime_min
  | old_time_of (j : json).

Record UrlDiff := mkUrlDiff {
  url : string;
  differentiating_elements : list DifferentiatingElement;
  old_timestamp : old_time;
  new_timestamp : string
}.

(** The tree bs4 builds around the parsed contents of a markup: the
    [[document]] tag. *)
Definition document (contents : list PageElement) : Tag :=
  mkTag "[document]" ∅ contents.

Section cycle.

(** The two library functions the cycle is parametric in: the tree
    builder of bs4 for [html.parser], giving the contents of the document
    for a markup it accepts and [None] for a markup it rejects, and the
    text format of [json]. *)
Variable html_parser : string → option (list PageElement).
Variable json_dumps : json → string.
Variable json_loads : string → option json.

(** [BeautifulSoup(markup, 'html.parser')]: bs4 raises [TypeError] for a
    markup that is not a string, and [ParserRejectedMarkup] for a string
    the parser gives up on. *)
Definition BeautifulSoup (markup : json) : result Tag :=
  match markup with
  | JStr s =>
      match html_parser s with
      | Some contents => Ok (document contents)
      | None => Raise ParserRejectedMarkup
      end
  | _ => Raise TypeError
  end.

(** [diff_url], run at the [tick]-th reading of the clock; it reads the
    clock twice.  The cache is only changed by the assignment on line 107,
    after every statement that can raise. *)
Definition diff_url (env : Env) (tick : nat) (url : string) (cache : cache_obj)
    : result (UrlDiff * cache_obj) :=
  response ← client_get env url;
  response ← raise_for_status response;
  let new_html_str := text response in
  old_cache_entry ← cache_get cache url;
  old_html_field ← entry_get old_cache_entry "html";
  let old_html_str := default (JStr "") old_html_field in
  old_html ← BeautifulSoup old_html_str;
  new_html ← BeautifulSoup (JStr new_html_str);
  let differentiating_elements := compare_html old_html new_html in
  let cache' :=
    cache_set cache url (mkCacheEntry new_html_str (now_isoformat env tick)) in
  old_timestamp_field ← entry_get old_cache_entry "timestamp";
  Ok (mkUrlDiff url differentiating_elements
        (from_option old_time_of datetime_min old_timestamp_field)
        (now_isoformat env (S tick)),
      cache').

(** The [try] block of [do_diff]: only [FileNotFoundError] is caught. *)
Definition load_cache (f : file) : result cache_obj :=
  match
    (s ← read_text f;
     match json_loads s with
     | Some j => Ok j
     | None => Raise JSONDecodeError
     end)
  with
  | Ok j => Ok (cache_of_json j)
  | Raise FileNotFoundError => Ok (CacheDict ∅)
  | Raise e => Raise e
  end.

(** [cache_path.write_text(json.dumps(cache, indent=4, cls=EnhancedJSONEncoder))]. *)
Definition save_cache (cache : cache_obj) : file :=
  Content (json_dumps (encode_cache cache)).

(** [asyncio.gather] over the [diff_url] tasks.  Every task is suspended
    at its [await client.get]; once its response is there it runs to its
    end without another suspension.  [order] lists the tasks, by their
    position in [urls], in the order in which they are resumed.  The first
    exception ends the gather; otherwise each task leaves its result in its
    own slot. *)
Fixpoint run_tasks (env : Env) (urls : list string) (order : list nat)
    (tick : nat) (cache : cache_obj) (slots : list (option UrlDiff))
    : result (list (option UrlDiff) * cache_obj) :=
  match order with
  | [] => Ok (slots, cache)
  | i :: order' =>
      match urls !! i with
      | None => run_tasks env urls order' tick cache slots
      | Some url =>
          '(url_diff, cache') ← diff_url env tick url cache;
          run_tasks env urls order' (2 + tick) cache' (<[i := Some url_diff]> slots)
      end
  end.

Definition gather (env : Env) (urls : list string) (order : list nat)
    (cache : cache_obj) : result (list UrlDiff * cache_obj) :=
  match run_tasks env urls order 0 cache (replicate (length urls) None) with
  | Ok (slots, cache') => Ok (omap id slots, cache')
  | Raise e => Raise e
  end.

(** The blocks [do_diff] prints: one per URL with a difference. *)
Definition printed (url_diffs : list UrlDiff) : list UrlDiff :=
  filter (λ d, differentiating_elements d ≠ []) url_diffs.

(** [do_diff]: the outcome of the cycle (the gathered results, or the
    exception that ended it) and the cache file it leaves. *)
Definition do_diff (env : Env) (cache_file : file) (urls : list string)
    (order : list nat) : result (list UrlDiff) * file :=
  match load_cache cache_file with
  | Raise e => (Raise e, cache_file)
  | Ok cache =>
      match gather env urls order cache with
      | Raise e => (Raise e, cache_file)
      | Ok (url_diffs, cache') => (Ok url_diffs, save_cache cache')
      end
  end.

End cycle.

(** * Stand-ins for the two libraries

    A small HTML tree builder and a small JSON text format.  They give the
    parameters of the cycle a concrete value in the examples; the properties
    of the cycle are proved for every parser and every text format, under
    the laws they state. *)

(** ** A tree builder for tags without attributes and text

    Like [html.parser], it gives up on a marked section [<![] that names
    no keyword. *)

Inductive token :=
  | TOpen (name : string)
  | TClose (name : string)
  | TText (s : string).

Fixpoint scan_until (stop : ascii) (s : list ascii) : list ascii * list ascii :=
  match s with
  | [] => ([], [])
  | c :: r =>
      if decide (c = stop) then ([], s)
      else let p := scan_until stop r in (c :: p.1, p.2)
  end.

Fixpoint tokens (fuel : nat) (s : list ascii) : list token :=
  match fuel, s with
  | S fuel', c :: r =>
      if decide (c = "<"%char) then
        let p := scan_until ">"%char r in
        match p.1 with
        | "/"%char :: name => TClose (String.string_of_list_ascii name)
        | name => TOpen (String.string_of_list_ascii name)
        end :: tokens fuel' (drop 1 p.2)
      else
        let p := scan_until "<"%char s in
        TText (String.string_of_list_ascii p.1) :: tokens fuel' p.2
  | _, _ => []
  end.

Fixpoint build (fuel : nat) (toks : list token) : list PageElement * list token :=
  match fuel, toks with
  | S fuel', TText s :: toks' =>
      let rest := build fuel' toks' in (inl s :: rest.1, rest.2)
  | S fuel', TOpen name :: toks' =>
      let children := build fuel' toks' in
      let siblings := build fuel' children.2 in
      (inr (mkTag name ∅ children.1) :: siblings.1, siblings.2)
  | S fuel', TClose _ :: toks' => ([], toks')
  | _, _ => ([], [])
  end.

Fixpoint rejected (s : list ascii) : bool :=
  match s with
  | [] => false
  | _ :: r =>
      bool_decide (take 4 s = String.list_ascii_of_string "<![ ") || rejected r
  end.

Definition mini_html_parser (markup : string) : option (list PageElement) :=
  let cs := String.list_ascii_of_string markup in
  if rejected cs then None
  else
    let toks := tokens (length cs) cs in
    Some (build (length toks) toks).1.

(** ** A JSON text format

    [doc] is the syntax of a JSON text: an object is the list of its
    members in the order of the text.  [write_doc] prints a [doc] without
    white space, [parse_value] reads one back and skips white space between
    the tokens; its [fuel] bounds the number of values and separators read. *)

Definition quote : ascii := "034".
Definition backslash : ascii := "092".
Definition newline : ascii := "010".

Definition is_ws (c : ascii) : bool :=
  bool_decide (c = " "%char) || bool_decide (c = newline)
  || bool_decide (c = "009"%char) || bool_decide (c = "013"%char).

Fixpoint skip_ws (s : list ascii) : list ascii :=
  match s with
  | c :: r => if is_ws c then skip_ws r else s
  | [] => []
  end.

Definition escape_char (c : ascii) : list ascii :=
  if decide (c = quote) then [backslash; quote]
  else if decide (c = backslash) then [backslash; backslash]
  else if decide (c = newline) then [backslash; "n"%char]
  else [c].

Definition write_string (s : string) : list ascii :=
  quote :: (String.list_ascii_of_string s ≫= escape_char) ++ [quote].

Definition unescape (c : ascii) : option ascii :=
  if decide (c = quote) then Some quote
  else if decide (c = backslash) then Some backslash
  else if decide (c = "/"%char) then Some "/"%char
  else if decide (c = "n"%char) then Some newline
  else if decide (c = "t"%char) then Some "009"%char
  else if decide (c = "r"%char) then Some "013"%char
  else if decide (c = "b"%char) then Some "008"%char
  else if decide (c = "f"%char) then Some "012"%char
  else None.

Fixpoint read_string (s : list ascii) : option (list ascii * list ascii) :=
  match s with
  | [] => None
  | c :: r =>
      if decide (c = quote) then Some ([], r)
      else if decide (c = backslash) then
        match r with
        | [] => None
        | e :: r' =>
            c' ← unescape e;
            p ← read_string r';
            Some (c' :: p.1, p.2)
        end
      else
        p ← read_string r;
        Some (c :: p.1, p.2)
  end.

Fixpoint write_uint (d : Decimal.uint) : list ascii :=
  match d with
  | Decimal.Nil => []
  | Decimal.D0 d => "0"%char :: write_uint d
  | Decimal.D1 d => "1"%char :: write_uint d
  | Decimal.D2 d => "2"%char :: write_uint d
  | Decimal.D3 d => "3"%char :: write_uint d
  | Decimal.D4 d => "4"%char :: write_uint d
  | Decimal.D5 d => "5"%char :: write_uint d
  | Decimal.D6 d => "6"%char :: write_uint d
  | Decimal.D7 d => "7"%char :: write_uint d
  | Decimal.D8 d => "8"%char :: write_uint d
  | Decimal.D9 d => "9"%char :: write_uint d
  end.

Definition digit_of (c : ascii) : option (Decimal.uint → Decimal.uint) :=
  if decide (c = "0"%char) then Some Decimal.D0
  else if decide (c = "1"%char) then Some Decimal.D1
  else if decide (c = "2"%char) then Some Decimal.D2
  else if decide (c = "3"%char) then Some Decimal.D3
  else if decide (c = "4"%char) then Some Decimal.D4
  else if decide (c = "5"%char) then Some Decimal.D5
  else if decide (c = "6"%char) then Some Decimal.D6
  else if decide (c = "7"%char) then Some Decimal.D7
  else if decide (c = "8"%char) then Some Decimal.D8
  else if decide (c = "9"%char) then Some Decimal.D9
  else None.

Fixpoint read_uint (s : list ascii) : Decimal.uint * list ascii :=
  match s with
  | [] => (Decimal.Nil, [])
  | c :: r =>
      match digit_of c with
      | Some digit => let p := read_uint r in (digit p.1, p.2)
      | None => (Decimal.Nil, s)
      end
  end.

Definition write_Z (n : Z) : list ascii :=
  match Z.to_int n with
  | Decimal.Pos d => write_uint d
  | Decimal.Neg d => "-"%char :: write_uint d
  end.

Definition read_Z (s : list ascii) : option (Z * list ascii) :=
  match s with
  | [] => None
  | c :: r =>
      if decide (c = "-"%char) then
        match read_uint r with
        | (Decimal.Nil, _) => None
        | (d, rest) => Some (Z.of_int (Decimal.Neg d), rest)
        end
      else
        match read_uint s with
        | (Decimal.Nil, _) => None
        | (d, rest) => Some (Z.of_int (Decimal.Pos d), rest)
        end
  end.

Definition no_digit_ahead (r : list ascii) : Prop :=
  match r with
  | [] => True
  | c :: _ => digit_of c = None
  end.

#[warnings="-register-all"]
Inductive doc :=
  | DNull
  | DBool (b : bool)
  | DNum (n : Z)
  | DStr (s : string)
  | DArr (items : list doc)
  | DObj (members : list (string * doc)).

Definition chars (s : string) : list ascii := String.list_ascii_of_string s.

Fixpoint write_items_tail (write : doc → list ascii) (items : list doc) : list ascii :=
  match items with
  | [] => ["]"%char]
  | y :: items' => ","%char :: write y ++ write_items_tail write items'
  end.

Fixpoint write_members_tail (write : doc → list ascii)
    (members : list (string * doc)) : list ascii :=
  match members with
  | [] => ["}"%char]
  | (k, v) :: members' =>
      ","%char :: write_string k ++ ":"%char :: write v ++ write_members_tail write members'
  end.

Fixpoint write_doc (d : doc) : list ascii :=
  match d with
  | DNull => chars "null"
  | DBool true => chars "true"
  | DBool false => chars "false"
  | DNum n => write_Z n
  | DStr s => write_string s
  | DArr [] => chars "[]"
  | DArr (x :: items) => "["%char :: write_doc x ++ write_items_tail write_doc items
  | DObj [] => chars "{}"
  | DObj ((k, v) :: members) =>
      "{"%char :: write_string k ++ ":"%char :: write_doc v
        ++ write_members_tail write_doc members
  end.

Definition strip_prefix (p s : list ascii) : option (list ascii) :=
  if decide (take (length p) s = p) then Some (drop (length p) s) else None.

Definition parse_member (parse : list ascii → option (doc * list ascii))
    (s : list ascii) : option ((string * doc) * list ascii) :=
  match skip_ws s with
  | [] => None
  | c :: r =>
      if decide (c = quote) then
        k ← read_string r;
        match skip_ws k.2 with
        | [] => None
        | c' :: r' =>
            if decide (c' = ":"%char) then
              p ← parse r';
              Some ((String.string_of_list_ascii k.1, p.1), p.2)
            else None
        end
      else None
  end.

Fixpoint parse_value (fuel : nat) (s : list ascii) : option (doc * list ascii) :=
  match fuel with
  | 0 => None
  | S fuel' =>
      match skip_ws s with
      | [] => None
      | c :: r =>
          if decide (c = "n"%char) then
            r' ← strip_prefix (chars "ull") r; Some (DNull, r')
          else if decide (c = "t"%char) then
            r' ← strip_prefix (chars "rue") r; Some (DBool true, r')
          else if decide (c = "f"%char) then
            r' ← strip_prefix (chars "alse") r; Some (DBool false, r')
          else if decide (c = quote) then
            p ← read_string r; Some (DStr (String.string_of_list_ascii p.1), p.2)
          else if decide (c = "["%char) then
            match skip_ws r with
            | [] => None
            | c' :: r' =>
                if decide (c' = "]"%char) then Some (DArr [], r')
                else
                  p ← parse_value fuel' r;
                  q ← parse_items_tail fuel' p.2;
                  Some (DArr (p.1 :: q.1), q.2)
            end
          else if decide (c = "{"%char) then
            match skip_ws r with
            | [] => None
            | c' :: r' =>
                if decide (c' = "}"%char) then Some (DObj [], r')
                else
                  m ← parse_member (parse_value fuel') r;
                  q ← parse_members_tail fuel' m.2;
                  Some (DObj (m.1 :: q.1), q.2)
            end
          else
            p ← read_Z (c :: r); Some (DNum p.1, p.2)
      end
  end
with parse_items_tail (fuel : nat) (s : list ascii) : option (list doc * list ascii) :=
  match fuel with
  | 0 => None
  | S fuel' =>
      match skip_ws s with
      | [] => None
      | c :: r =>
          if decide (c = "]"%char) then Some ([], r)
          else if decide (c = ","%char) then
            p ← parse_value fuel' r;
            q ← parse_items_tail fuel' p.2;
            Some (p.1 :: q.1, q.2)
          else None
      end
  end
with parse_members_tail (fuel : nat) (s : list ascii)
    : option (list (string * doc) * list ascii) :=
  match fuel with
  | 0 => None
  | S fuel' =>
      match skip_ws s with
      | [] => None
      | c :: r =>
          if decide (c = "}"%char) then Some ([], r)
          else if decide (c = ","%char) then
            m ← parse_member (parse_value fuel') r;
            q ← parse_members_tail fuel' m.2;
            Some (m.1 :: q.1, q.2)
          else None
      end
  end.

Fixpoint tail_size (size : doc → nat) (items : list doc) : nat :=
  match items with
  | [] => 1
  | y :: items' => S (size y + tail_size size items')
  end.

Fixpoint members_tail_size (size : doc → nat) (members : list (string * doc)) : nat :=
  match members with
  | [] => 1
  | (_, v) :: members' => S (size v + members_tail_size size members')
  end.

Fixpoint doc_size (d : doc) : nat :=
  match d with
  | DArr (x :: items) => S (doc_size x + tail_size doc_size items)
  | DObj ((_, v) :: members) => S (doc_size v + members_tail_size doc_size members)
  | _ => 1
  end.

(** The characters a JSON value can start with are not white space and
    close neither an array nor an object. *)
Definition value_start (c : ascii) : Prop :=
  is_ws c = false ∧ c ≠ "]"%char ∧ c ≠ "}"%char.

(** [parse_value] reads back what [write_doc] printed, given enough fuel
    and no digit right after the text. *)
Definition parses (d : doc) : Prop :=
  ∀ (fuel : nat) r, (doc_size d ≤ fuel)%nat → no_digit_ahead r →
    parse_value fuel (write_doc d ++ r) = Some (d, r).

(** A JSON value as a text and back.  A Python dictionary keeps one value
    per key: of two members with the same key the later one wins. *)
Fixpoint json_to_doc (j : json) : doc :=
  match j with
  | JNull => DNull
  | JBool b => DBool b
  | JNum n => DNum n
  | JStr s => DStr s
  | JArr items => DArr (json_to_doc <$> items)
  | JObj fields => DObj (map_to_list (json_to_doc <$> fields))
  end.

Fixpoint doc_to_json (d : doc) : json :=
  match d with
  | DNull => JNull
  | DBool b => JBool b
  | DNum n => JNum n
  | DStr s => JStr s
  | DArr items => JArr (doc_to_json <$> items)
  | DObj members =>
      JObj (list_to_map (reverse (prod_map id doc_to_json <$> members)))
  end.

Fixpoint json_size (j : json) : nat :=
  match j with
  | JArr items => S (sum_list_with json_size items)
  | JObj fields => S (map_fold (λ _ v acc, json_size v + acc) 0 fields)
  | _ => 1
  end.

Definition mini_json_dumps (j : json) : string :=
  String.string_of_list_ascii (write_doc (json_to_doc j)).

Definition mini_json_loads (s : string) : option json :=
  let cs := String.list_ascii_of_string s in
  p ← parse_value (length cs) cs;
  match skip_ws p.2 with
  | [] => Some (doc_to_json p.1)
  | _ :: _ => None
  end.

(** ** A sample world

    A network that serves the given pages and fails on every other URL, and
    a clock whose [n]-th reading is [n] seconds past midnight. *)
Definition serve (pages : gmap string Response) (url : string) : result Response :=
  from_option Ok (Raise RequestError) (pages !! url).

Definition sample_clock (n : nat) : string := "2026-01-01T00:00:" +:+ pretty n.

Definition sample_env (pages : gmap string Response) : Env :=
  mkEnv (serve pages) sample_clock.

Definition hello_page : string := "<html><body>hi</body></html>".

(** ** Corresponding nodes

    [subtree_at t path] follows [path], a list of positions among the
    element children, down from [t]. *)
Fixpoint subtree_at (t : Tag) (path : list nat) : option Tag :=
  match path with
  | [] => Some t
  | i :: path' => c ← findChildren t !! i; subtree_at c path'
  end.

(** A differentiating element read the other way round. *)
Definition swap_pair (d : DifferentiatingElement) : DifferentiatingElement :=
  mkDifferentiatingElement (new d) (old d).

(** ** What [diff_url] reads from the cache

    The markup and the timestamp [diff_url] takes for a URL out of the cache
    dictionary (lines 96, 97 and 112): the empty markup and [datetime.min]
    when the URL or the field is absent; no markup when the value kept for
    the URL is not a dictionary or its [html] is not a string. *)
Definition cached_html (m : gmap string cache_value) (url : string) : option string :=
  match default (FromJson (JObj ∅)) (m !! url) with
  | FromJson (JObj fields) =>
      match default (JStr "") (fields !! "html") with
      | JStr s => Some s
      | _ => None
      end
  | _ => None
  end.

Definition cached_timestamp (m : gmap string cache_value) (url : string) : old_time :=
  match default (FromJson (JObj ∅)) (m !! url) with
  | FromJson (JObj fields) => from_option old_time_of datetime_min (fields !! "timestamp")
  | _ => datetime_min
  end.

(** Two pages, the cache file a first cycle over the first page leaves, and
    the entry that file holds for it. *)
Definition two_pages : gmap string Response :=
  {["http://a" := mkResponse 200 hello_page; "http://b" := mkResponse 200 "<p>B</p>"]}.

Definition two_urls : list string := ["http://a"; "http://b"].

Definition hello_fields : gmap string json :=
  {["html" := JStr hello_page; "timestamp" := JStr (sample_clock 0)]}.

Definition hello_file : file :=
  save_cache mini_json_dumps
    (CacheDict {["http://a" := EntryObject (mkCacheEntry hello_page (sample_clock 0))]}).

(** ** The report

    What [do_diff] prints for the results of a cycle (lines 133 to 144), one
    string per call of [print].  The text of a tag and the text of an old
    timestamp are those of [str], which bs4 and Python define. *)
Section report.

Variable str_tag : Tag → string.
Variable str_old_time : old_time → string.

Definition change_lines (url_diff : UrlDiff) (change : DifferentiatingElement)
    : list string :=
  ["WAS at " +:+ str_old_time (old_timestamp url_diff);
   str_tag (old change);
   "IS NOW at " +:+ new_timestamp url_diff;
   str_tag (new change)].

Definition url_diff_lines (url_diff : UrlDiff) : list string :=
  match differentiating_elements url_diff with
  | [] => []
  | changes =>
      ["CHANGE " +:+ url url_diff;
       "OLD: " +:+ str_old_time (old_timestamp url_diff);
       "NEW: " +:+ new_timestamp url_diff]
      ++ (changes ≫= change_lines url_diff)
      ++ [String newline (String newline (String newline ""))]
  end.

Definition report (url_diffs : list UrlDiff) : list string :=
  url_diffs ≫= url_diff_lines.

End report.

(** ** The wait between two cycles

    [timedelta(minutes=n).seconds] for an integer [n], the number of seconds
    [main] sleeps (lines 156 and 158).  A [timedelta] keeps its days apart
    from its seconds, which stay between 0 and 86399, and [seconds] is that
    field, not the whole duration.  [None] stands for the [OverflowError] of
    a [timedelta] beyond 999999999 days. *)
Definition timedelta_minutes_seconds (minutes : Z) : option Z :=
  let total := (60 * minutes)%Z in
  if bool_decide (-999999999 ≤ total `div` 86400 ≤ 999999999)%Z
  then Some (total `mod` 86400)%Z
  else None.

(** * Properties of the DOM model *)

Section dom_facts.

Implicit Types (t old_html new_html : Tag) (cs : list PageElement).

(** Induction over trees: the property holds for a tag when it holds for
    all its element children. *)
Lemma Tag_ind' (P : Tag → Prop) :
  (∀ n a cs, Forall P (tags_of cs) → P (mkTag n a cs)) → ∀ t, P t.
Proof.
  intros Hnode. fix IH 1. intros [n a cs]. apply Hnode.
  induction cs as [|[s|c] cs IHcs]; simpl.
  - constructor.
  - exact IHcs.
  - constructor; [apply IH | exact IHcs].
Qed.

Lemma tags_of_app cs1 cs2 : tags_of (cs1 ++ cs2) = tags_of cs1 ++ tags_of cs2.
Proof. unfold tags_of. apply omap_app. Qed.

Lemma contents_eqb_eq (eqb : Tag → Tag → bool) cs cs' :
  Forall (λ t, ∀ t', eqb t t' = true ↔ t = t') (tags_of cs) →
  contents_eqb eqb cs cs' = true ↔ cs = cs'.
Proof.
  revert cs'. induction cs as [|[s|c] cs IHcs]; intros [|[s'|c'] cs'] Hall; simpl in *;
    try (split; [discriminate | congruence]); try done.
  - rewrite andb_true_iff, bool_decide_eq_true, (IHcs cs' Hall).
    split; [intros [-> ->] | intros [= -> ->]]; done.
  - apply Forall_cons in Hall as [Hc Hall].
    rewrite andb_true_iff, Hc, (IHcs cs' Hall).
    split; [intros [-> ->] | intros [= -> ->]]; done.
Qed.

(** [==] on trees decides structural equality. *)
Lemma Tag_eqb_eq t t' : Tag_eqb t t' = true ↔ t = t'.
Proof.
  revert t'. induction t as [n a cs IH] using Tag_ind'. intros [n' a' cs']. simpl.
  rewrite !andb_true_iff, !bool_decide_eq_true, (contents_eqb_eq _ _ _ IH).
  split; [intros [[-> ->] ->] | intros [= -> -> ->]]; done.
Qed.

Lemma Tag_eqb_refl t : Tag_eqb t t = true.
Proof. by apply Tag_eqb_eq. Qed.

Lemma Tag_eqb_neq t t' : Tag_eqb t t' = false ↔ t ≠ t'.
Proof. rewrite <- Tag_eqb_eq. by destruct (Tag_eqb t t'). Qed.

End dom_facts.

(** * Properties of [compare_html] *)

Section compare_html_facts.

Implicit Types (t old_html new_html : Tag) (cs : list PageElement).
Implicit Types (d : DifferentiatingElement).

Lemma diff_children_zip compare cs (news : list Tag) :
  diff_children compare cs news = concat (zip_with compare (tags_of cs) news).
Proof.
  revert news. induction cs as [|[s|c] cs IH]; intros news; simpl; [done.. |].
  destruct news as [|n news]; simpl; [done |]. by rewrite IH.
Qed.

(** The body of [compare_html], in the shape of the source: the test
    [old_html == new_html], the loop over [zip(old_children, new_children)]
    and the test [if not diff]. *)
Lemma compare_html_unfold old_html new_html :
  compare_html old_html new_html =
    if Tag_eqb old_html new_html then []
    else
      let diff :=
        concat (zip_with compare_html (findChildren old_html) (findChildren new_html)) in
      match diff with
      | [] => [mkDifferentiatingElement old_html new_html]
      | _ :: _ => diff
      end.
Proof.
  destruct old_html as [n a cs]. cbn [compare_html tag_contents].
  by rewrite diff_children_zip.
Qed.

Lemma compare_html_eq old_html new_html :
  old_html = new_html → compare_html old_html new_html = [].
Proof.
  intros Heq. apply Tag_eqb_eq in Heq. by rewrite compare_html_unfold, Heq.
Qed.

(** No difference is reported only for equal trees. *)
Lemma compare_html_nil old_html new_html :
  compare_html old_html new_html = [] ↔ old_html = new_html.
Proof.
  split; [| apply compare_html_eq].
  rewrite compare_html_unfold. destruct (Tag_eqb old_html new_html) eqn:E.
  - intros _. by apply Tag_eqb_eq.
  - cbn zeta. by destruct (concat _).
Qed.

(** The diffs of the paired children are all empty exactly when the paired
    children are pairwise equal. *)
Lemma children_diffs_nil (olds news : list Tag) :
  concat (zip_with compare_html olds news) = [] ↔
  Forall (λ p, p.1 = p.2) (zip olds news).
Proof.
  revert news. induction olds as [|o olds IH]; intros [|n news]; simpl;
    try (split; [constructor | done]).
  rewrite Forall_cons. simpl. rewrite <- IH, <- compare_html_nil.
  split.
  - intros H. by apply app_eq_nil in H.
  - intros [-> ->]. done.
Qed.

Lemma compare_html_at_node old_html new_html :
  old_html ≠ new_html →
  Forall (λ p, p.1 = p.2) (zip (findChildren old_html) (findChildren new_html)) →
  compare_html old_html new_html = [mkDifferentiatingElement old_html new_html].
Proof.
  intros Hne Hall. apply Tag_eqb_neq in Hne. apply children_diffs_nil in Hall.
  by rewrite compare_html_unfold, Hne, Hall.
Qed.

Lemma compare_html_descend old_html new_html :
  old_html ≠ new_html →
  Exists (λ p, p.1 ≠ p.2) (zip (findChildren old_html) (findChildren new_html)) →
  compare_html old_html new_html =
    concat (zip_with compare_html (findChildren old_html) (findChildren new_html)).
Proof.
  intros Hne Hex. apply Tag_eqb_neq in Hne.
  rewrite compare_html_unfold, Hne. cbn zeta.
  destruct (concat _) as [|d ds] eqn:E; [| done].
  apply children_diffs_nil in E. apply Exists_exists in Hex as (p & Hp & Hpne).
  rewrite Forall_forall in E. by destruct Hpne; apply E.
Qed.

Lemma zip_diag_Forall (l : list Tag) : Forall (λ p, p.1 = p.2) (zip l l).
Proof. induction l; simpl; by constructor. Qed.

End compare_html_facts.

(** * The claims about [compare_html] *)

Example compare_html_nested_change :
  compare_html (div_doc "B") (div_doc "C")
  = [mkDifferentiatingElement (p_elem "B") (p_elem "C")].
Proof. vm_compute. reflexivity. Qed.

(** C1: for trees that are not structurally equal, [compare_html] returns
    the single pair of the two trees when the positionally paired element
    children are pairwise equal, which includes the case where one of the
    two has no element children; and it returns the concatenation of the
    diffs of the paired children when some paired child differs. *)
Theorem compare_html_unequal_trees (old_html new_html : Tag) :
  old_html ≠ new_html →
  (Forall (λ p, p.1 = p.2) (zip (findChildren old_html) (findChildren new_html)) →
   compare_html old_html new_html = [mkDifferentiatingElement old_html new_html])
  ∧ (findChildren old_html = [] ∨ findChildren new_html = [] →
     compare_html old_html new_html = [mkDifferentiatingElement old_html new_html])
  ∧ (Exists (λ p, p.1 ≠ p.2) (zip (findChildren old_html) (findChildren new_html)) →
     compare_html old_html new_html =
       concat (zip_with compare_html (findChildren old_html) (findChildren new_html))).
Proof.
  intros Hne. split; [| split].
  - by apply compare_html_at_node.
  - intros Hnone. apply compare_html_at_node; [done |].
    destruct Hnone as [-> | ->]; [constructor |].
    destruct (findChildren old_html); constructor.
  - by apply compare_html_descend.
Qed.

Lemma compare_html_unequal_trees_witness :
  compare_html (p_elem "B") (p_elem "C")
    = [mkDifferentiatingElement (p_elem "B") (p_elem "C")]
  ∧ compare_html (div_doc "B") (div_doc "C")
    = concat (zip_with compare_html (findChildren (div_doc "B")) (findChildren (div_doc "C"))).
Proof.
  split.
  - apply (compare_html_unequal_trees (p_elem "B") (p_elem "C")); [discriminate |].
    left. reflexivity.
  - apply (compare_html_unequal_trees (div_doc "B") (div_doc "C")); [discriminate |].
    apply Exists_cons_tl, Exists_cons_hd. discriminate.
Defined.

(** C2: [compare_html T T] is the empty list for every tree [T], and more
    generally [compare_html] returns the empty list whenever the test
    [old_html == new_html] succeeds. *)
Theorem compare_html_reflexive :
  (∀ T : Tag, compare_html T T = [])
  ∧ (∀ old_html new_html : Tag,
       Tag_eqb old_html new_html = true → compare_html old_html new_html = []).
Proof.
  split.
  - intros T. by apply compare_html_eq.
  - intros old_html new_html Heq. by apply compare_html_eq, Tag_eqb_eq.
Qed.

Lemma compare_html_reflexive_witness :
  compare_html (div_doc "B") (div_doc "B") = []
  ∧ (Tag_eqb (div_doc "B") (mkTag "div" ∅ [inr (p_elem "A"); inr (p_elem "B")]) = true
     ∧ compare_html (div_doc "B") (mkTag "div" ∅ [inr (p_elem "A"); inr (p_elem "B")]) = []).
Proof.
  split.
  - apply (proj1 compare_html_reflexive).
  - split; [reflexivity |].
    apply (proj2 compare_html_reflexive). reflexivity.
Defined.

Section compare_html_positions.

Implicit Types (t c old_html new_html : Tag) (cs : list PageElement).

Lemma findChildren_size c t : c ∈ findChildren t → Tag_size c < Tag_size t.
Proof.
  destruct t as [n a cs]. unfold findChildren. cbn [tag_contents Tag_size].
  induction cs as [|[s|c'] cs IH]; simpl.
  - intros H. by apply elem_of_nil in H.
  - exact IH.
  - intros [-> | H]%elem_of_cons; [lia |]. specialize (IH H). lia.
Qed.

Lemma findChildren_height c t : c ∈ findChildren t → Tag_height c < Tag_height t.
Proof.
  destruct t as [n a cs]. unfold findChildren. cbn [tag_contents Tag_height].
  induction cs as [|[s|c'] cs IH]; simpl.
  - intros H. by apply elem_of_nil in H.
  - exact IH.
  - intros [-> | H]%elem_of_cons; [lia |]. specialize (IH H). lia.
Qed.

Lemma findChildren_fill f t :
  findChildren (fill f t) = tags_of (frame_before f) ++ t :: tags_of (frame_after f).
Proof. unfold findChildren, fill. cbn [tag_contents]. by rewrite tags_of_app. Qed.

Lemma fill_inj f t t' : fill f t = fill f t' → t = t'.
Proof. unfold fill. intros [= H]. by apply app_inv_head in H as [= ->]. Qed.

Lemma plug_inj path t t' : plug path t = plug path t' → t = t'.
Proof. induction path as [|f path IH]; simpl; [done |]. intros H. by apply IH, (fill_inj f). Qed.

Lemma plug_size path t : path ≠ [] → Tag_size t < Tag_size (plug path t).
Proof.
  induction path as [|f path IH]; [done |]. intros _. simpl.
  assert (Tag_size (plug path t) < Tag_size (fill f (plug path t))) as Hlt.
  { apply findChildren_size. rewrite findChildren_fill. set_solver. }
  destruct path as [|g path]; [exact Hlt |].
  etrans; [apply IH; done | exact Hlt].
Qed.

Lemma zip_with_diag_app_nil (l k : list Tag) :
  concat (zip_with compare_html l (l ++ k)) = [].
Proof.
  induction l as [|x l IH]; simpl; [by destruct k |].
  by rewrite compare_html_eq, IH.
Qed.

(** Under a frame only the child in the hole is compared with a different
    tree: its siblings are the same on both sides. *)
Lemma compare_html_fill f t t' :
  t ≠ t' → compare_html (fill f t) (fill f t') = compare_html t t'.
Proof.
  intros Hne.
  assert (fill f t ≠ fill f t') as Hfill by (intros H; by apply Hne, (fill_inj f)).
  apply Tag_eqb_neq in Hfill.
  rewrite compare_html_unfold, Hfill, !findChildren_fill. cbn zeta.
  rewrite zip_with_app by done. simpl. rewrite !concat_app. simpl.
  pose proof (zip_with_diag_app_nil (tags_of (frame_before f)) []) as Hb.
  pose proof (zip_with_diag_app_nil (tags_of (frame_after f)) []) as Ha.
  rewrite !app_nil_r in Hb, Ha. rewrite Hb, Ha, app_nil_r. simpl.
  destruct (compare_html t t') eqn:E; [| done].
  by apply compare_html_nil in E.
Qed.

Lemma compare_html_plug path t t' :
  t ≠ t' → compare_html (plug path t) (plug path t') = compare_html t t'.
Proof.
  intros Hne. induction path as [|f path IH]; [done |].
  change (plug (f :: path) t) with (fill f (plug path t)).
  change (plug (f :: path) t') with (fill f (plug path t')).
  rewrite compare_html_fill; [done |]. intros H. by apply Hne, (plug_inj path).
Qed.

Lemma mapM_total {A B} (f : A → option B) (g : A → B) (l : list A) :
  Forall (λ x, f x = Some (g x)) l → mapM f l = Some (g <$> l).
Proof.
  intros Hall. apply mapM_Some_2, Forall2_fmap_r, Forall_Forall2_diag.
  exact Hall.
Qed.

Lemma fmap_zip_with {A B C} (f : A → B → C) (l : list A) (k : list B) :
  (λ p, f p.1 p.2) <$> zip l k = zip_with f l k.
Proof. revert k. induction l as [|x l IH]; intros [|y k]; simpl; by rewrite ?IH. Qed.

(** The recursion is at most as deep as the shallower of the two trees. *)
Lemma compare_html_fuel_enough fuel old_html new_html :
  Tag_height old_html `min` Tag_height new_html < fuel →
  compare_html_fuel fuel old_html new_html = Some (compare_html old_html new_html).
Proof.
  revert old_html new_html. induction fuel as [|fuel IH]; intros old_html new_html Hlt; [lia |].
  rewrite compare_html_unfold. cbn [compare_html_fuel].
  destruct (Tag_eqb old_html new_html); [done |].
  rewrite (mapM_total _ (λ p, compare_html p.1 p.2)).
  - cbn. by rewrite fmap_zip_with.
  - apply Forall_forall. intros [o n] Hin. cbn. apply IH.
    pose proof (findChildren_height _ _ (elem_of_zip_l _ _ _ _ Hin)).
    pose proof (findChildren_height _ _ (elem_of_zip_r _ _ _ _ Hin)).
    lia.
Qed.

End compare_html_positions.

(** C3: when the element children of the new tree are those of the old tree
    followed by one more child, the diffs of the aligned children are empty,
    the only pair returned is the pair of the two trees themselves, and the
    appended child is not the new member of any returned pair (the old member
    of a pair is a node of the old tree, which does not contain it). *)
Theorem compare_html_trailing_child (old_html new_html c : Tag) :
  findChildren new_html = findChildren old_html ++ [c] →
  concat (zip_with compare_html (findChildren old_html) (findChildren new_html)) = []
  ∧ compare_html old_html new_html = [mkDifferentiatingElement old_html new_html]
  ∧ ∀ d, d ∈ compare_html old_html new_html → new d ≠ c.
Proof.
  intros Hnew.
  assert (concat (zip_with compare_html (findChildren old_html) (findChildren new_html)) = [])
    as Hprefix by (rewrite Hnew; apply zip_with_diag_app_nil).
  assert (old_html ≠ new_html) as Hne.
  { intros ->. apply (f_equal length) in Hnew. rewrite length_app in Hnew. simpl in Hnew. lia. }
  assert (compare_html old_html new_html = [mkDifferentiatingElement old_html new_html]) as Hres.
  { apply compare_html_at_node; [done |]. by apply children_diffs_nil. }
  split; [done |]. split; [done |].
  intros d Hd. rewrite Hres in Hd. apply list_elem_of_singleton in Hd as ->. simpl.
  intros ->. assert (c ∈ findChildren c) as Hin by (rewrite Hnew; set_solver).
  apply findChildren_size in Hin. lia.
Qed.

Lemma compare_html_trailing_child_witness :
  compare_html (mkTag "div" ∅ [inr (p_elem "A")]) (div_doc "B")
  = [mkDifferentiatingElement (mkTag "div" ∅ [inr (p_elem "A")]) (div_doc "B")].
Proof.
  apply (compare_html_trailing_child (mkTag "div" ∅ [inr (p_elem "A")])
           (div_doc "B") (p_elem "B")).
  reflexivity.
Defined.

(** C4: when two documents are the same around one element whose text alone
    differs, [compare_html] returns exactly one pair, made of the two versions
    of that element, the innermost element that holds the change; unless that
    element is the root, the pair is not the pair of the roots.  For
    [<div><p>A</p><p>B</p></div>] and [<div><p>A</p><p>C</p></div>] the pair
    is the second [<p>]. *)
Theorem compare_html_localises (path : list frame) (t t' : Tag) :
  differ_in_text t t' →
  compare_html (plug path t) (plug path t') = [mkDifferentiatingElement t t']
  ∧ (path ≠ [] →
     mkDifferentiatingElement t t'
     ≠ mkDifferentiatingElement (plug path t) (plug path t')).
Proof.
  intros (_ & _ & Hchildren & Hne). split.
  - rewrite compare_html_plug by done. apply compare_html_at_node; [done |].
    rewrite Hchildren. apply zip_diag_Forall.
  - intros Hpath [= Heq _]. pose proof (plug_size path t Hpath) as Hlt.
    rewrite <- Heq in Hlt. lia.
Qed.

Lemma compare_html_localises_witness :
  compare_html (div_doc "B") (div_doc "C")
  = [mkDifferentiatingElement (p_elem "B") (p_elem "C")]
  ∧ mkDifferentiatingElement (p_elem "B") (p_elem "C")
    ≠ mkDifferentiatingElement (div_doc "B") (div_doc "C").
Proof.
  assert (differ_in_text (p_elem "B") (p_elem "C")) as Hdiff.
  { repeat split; discriminate. }
  split.
  - apply (compare_html_localises [mkFrame "div" ∅ [inr (p_elem "A")] []]
             (p_elem "B") (p_elem "C") Hdiff).
  - apply (compare_html_localises [mkFrame "div" ∅ [inr (p_elem "A")] []]
             (p_elem "B") (p_elem "C") Hdiff).
    discriminate.
Defined.

(** C10: [compare_html] returns on every pair of trees.  Each recursive call
    is on a pair of element children of the two current nodes, so a call
    stack as deep as the shallower tree (plus one) is enough, and the result
    is the one [compare_html] computes. *)
Theorem compare_html_terminates (old_html new_html : Tag) (fuel : nat) :
  Tag_height old_html `min` Tag_height new_html < fuel →
  compare_html_fuel fuel old_html new_html = Some (compare_html old_html new_html).
Proof. apply compare_html_fuel_enough. Qed.

Lemma compare_html_terminates_witness :
  compare_html_fuel 2 (div_doc "B") (div_doc "C")
  = Some [mkDifferentiatingElement (p_elem "B") (p_elem "C")].
Proof.
  apply (compare_html_terminates (div_doc "B") (div_doc "C") 2).
  vm_compute. lia.
Defined.

(** * Properties of the cycle *)

Section cycle_facts.

Variable html_parser : string → option (list PageElement).
Variable json_dumps : json → string.
Variable json_loads : string → option json.

Implicit Types (env : Env) (m : gmap string cache_value) (cache : cache_obj).
Implicit Types (r : Response) (e : CacheEntry) (v : cache_value).

Lemma raise_for_status_ok r : is_success r = true → raise_for_status r = Ok r.
Proof. unfold raise_for_status. by intros ->. Qed.

(** A failed fetch ends [diff_url] before it looks at the cache. *)
Lemma diff_url_fetch_fails env tick url cache :
  fetch_fails env url → ∃ exn, diff_url html_parser env tick url cache = Raise exn.
Proof.
  unfold fetch_fails, diff_url. destruct (client_get env url) as [r | exn]; simpl.
  - intros Hstatus. unfold raise_for_status. rewrite Hstatus. simpl. by eexists.
  - intros _. by eexists.
Qed.

(** [diff_url] on an entry that was read from [cache.json] as a dictionary,
    or on no entry at all, when the cached content is a string and the
    parser accepts the cached and the fetched markup. *)
Lemma diff_url_dict_entry env tick url m r fields old_html_str old_contents new_contents :
  client_get env url = Ok r →
  is_success r = true →
  default (FromJson (JObj ∅)) (m !! url) = FromJson (JObj fields) →
  default (JStr "") (fields !! "html") = JStr old_html_str →
  html_parser old_html_str = Some old_contents →
  html_parser (text r) = Some new_contents →
  diff_url html_parser env tick url (CacheDict m)
  = Ok (mkUrlDiff url
          (compare_html (document old_contents) (document new_contents))
          (from_option old_time_of datetime_min (fields !! "timestamp"))
          (now_isoformat env (S tick)),
        CacheDict (<[url := EntryObject (mkCacheEntry (text r) (now_isoformat env tick))]> m)).
Proof.
  intros Hget Hok Hentry Hhtml Hold Hnew. unfold diff_url.
  rewrite Hget. simpl. rewrite (raise_for_status_ok _ Hok). simpl.
  rewrite Hentry. simpl. rewrite Hhtml. simpl. rewrite Hold. simpl.
  rewrite Hnew. simpl. done.
Qed.

(** The same call when the parser rejects the cached or the fetched
    markup: [diff_url] raises what [BeautifulSoup] raised. *)
Lemma diff_url_rejected_markup env tick url m r fields old_html_str :
  client_get env url = Ok r →
  is_success r = true →
  default (FromJson (JObj ∅)) (m !! url) = FromJson (JObj fields) →
  default (JStr "") (fields !! "html") = JStr old_html_str →
  html_parser old_html_str = None ∨ html_parser (text r) = None →
  diff_url html_parser env tick url (CacheDict m) = Raise ParserRejectedMarkup.
Proof.
  intros Hget Hok Hentry Hhtml Hrejected. unfold diff_url.
  rewrite Hget. simpl. rewrite (raise_for_status_ok _ Hok). simpl.
  rewrite Hentry. simpl. rewrite Hhtml. simpl.
  destruct Hrejected as [-> | Hnew]; [done |].
  destruct (html_parser old_html_str); simpl; [| done]. by rewrite Hnew.
Qed.

(** Whenever [diff_url] returns, the fetch succeeded, the cache was a
    dictionary, and the cache it leaves is that dictionary with the entry
    of [url] replaced by the fetched content, whatever the differences. *)
Lemma diff_url_returns env tick url cache url_diff cache' :
  diff_url html_parser env tick url cache = Ok (url_diff, cache') →
  ∃ r m, client_get env url = Ok r ∧ is_success r = true ∧ cache = CacheDict m
    ∧ cache' = CacheDict (<[url := EntryObject (mkCacheEntry (text r) (now_isoformat env tick))]> m).
Proof.
  unfold diff_url. destruct (client_get env url) as [r | exn]; simpl; [| done].
  unfold raise_for_status. destruct (is_success r) eqn:Hok; simpl; [| done].
  destruct cache as [m | j]; simpl; [| done].
  destruct (entry_get _ "html") as [old_html_field | exn] eqn:Hhtml; simpl; [| done].
  destruct (BeautifulSoup _ (default _ _)) as [old_html | exn]; simpl; [| done].
  destruct (html_parser (text r)) as [new_contents |]; simpl; [| done].
  destruct (entry_get _ "timestamp") as [old_timestamp_field | exn]; simpl; [| done].
  intros [= _ <-]. by exists r, m.
Qed.

(** A [CacheEntry] object in the cache ends [diff_url] with an
    [AttributeError]: the dataclass has no [get]. *)
Lemma diff_url_entry_object env tick url m r e :
  client_get env url = Ok r →
  is_success r = true →
  m !! url = Some (EntryObject e) →
  diff_url html_parser env tick url (CacheDict m) = Raise AttributeError.
Proof.
  intros Hget Hok Hentry. unfold diff_url.
  rewrite Hget. simpl. rewrite (raise_for_status_ok _ Hok). simpl.
  by rewrite Hentry.
Qed.

(** [run_tasks] raises as soon as one of the scheduled tasks has a failing
    fetch. *)
Lemma run_tasks_fetch_fails env urls order tick cache slots i url :
  i ∈ order → urls !! i = Some url → fetch_fails env url →
  ∃ exn, run_tasks html_parser env urls order tick cache slots = Raise exn.
Proof.
  intros Hin Hurl Hfails. revert tick cache slots.
  induction order as [|k order IH]; intros tick cache slots; [by apply elem_of_nil in Hin |].
  cbn [run_tasks]. apply elem_of_cons in Hin as [<- | Hin].
  - rewrite Hurl. destruct (diff_url_fetch_fails env tick url cache Hfails) as [exn ->].
    by exists exn.
  - destruct (urls !! k) as [u |]; [| by apply IH].
    destruct (diff_url html_parser env tick u cache) as [[url_diff cache'] | exn]; simpl.
    + by apply IH.
    + by exists exn.
Qed.

Lemma schedule_runs_every_task urls order url :
  schedule urls order → url ∈ urls → ∃ i, i ∈ order ∧ urls !! i = Some url.
Proof.
  unfold schedule. intros Hperm [i Hi]%list_elem_of_lookup. exists i. split; [| done].
  rewrite Hperm. apply elem_of_seq. apply lookup_lt_Some in Hi. lia.
Qed.

Lemma value_html_encode v : value_html (FromJson (encode_value v)) = value_html v.
Proof. by destruct v as [j | [h t]]. Qed.

Lemma value_timestamp_encode v :
  value_timestamp (FromJson (encode_value v)) = value_timestamp v.
Proof. by destruct v as [j | [h t]]. Qed.

Lemma load_save_cache m :
  (∀ j, json_loads (json_dumps j) = Some j) →
  load_cache json_loads (save_cache json_dumps (CacheDict m))
  = Ok (CacheDict (FromJson <$> (encode_value <$> m))).
Proof. intros Hlaw. unfold load_cache, save_cache. simpl. by rewrite Hlaw. Qed.

End cycle_facts.

(** * The JSON text format reads back what it writes *)

Section json_text.

Lemma read_string_escape_char c s :
  read_string (escape_char c ++ s) = p ← read_string s; Some (c :: p.1, p.2).
Proof.
  unfold escape_char. repeat case_decide; subst; try done.
  simpl. by rewrite !decide_False by done.
Qed.

Lemma read_string_escape cs r :
  read_string ((cs ≫= escape_char) ++ quote :: r) = Some (cs, r).
Proof.
  induction cs as [|c cs IH]; [done |].
  change ((c :: cs) ≫= escape_char) with (escape_char c ++ (cs ≫= escape_char)).
  by rewrite <- app_assoc, read_string_escape_char, IH.
Qed.

Lemma read_write_uint d r :
  no_digit_ahead r → read_uint (write_uint d ++ r) = (d, r).
Proof.
  intros Hr. induction d; simpl; rewrite ?IHd; try done.
  destruct r as [|c r]; simpl in *; [done | by rewrite Hr].
Qed.

Lemma write_uint_head d r :
  d ≠ Decimal.Nil → ∃ c s, write_uint d ++ r = c :: s ∧ is_Some (digit_of c).
Proof. destruct d; [done | intros _; simpl; eauto..]. Qed.

Lemma Z_to_int_nonnil n :
  match Z.to_int n with Decimal.Pos d | Decimal.Neg d => d ≠ Decimal.Nil end.
Proof.
  destruct n as [|p|p]; simpl; [done | apply DecimalPos.Unsigned.to_uint_nonnil..].
Qed.

Lemma read_write_Z n r :
  no_digit_ahead r → read_Z (write_Z n ++ r) = Some (n, r).
Proof.
  intros Hr. unfold write_Z. pose proof (Z_to_int_nonnil n) as Hnil.
  pose proof (DecimalZ.of_to n) as Hn.
  destruct (Z.to_int n) as [d | d].
  - destruct (write_uint_head d r Hnil) as (c & s & Heq & [digit Hc]).
    unfold read_Z. rewrite Heq. rewrite decide_False.
    2:{ intros ->. done. }
    rewrite <- Heq, read_write_uint by done.
    destruct d; [done | cbv beta iota; by rewrite Hn ..].
  - cbn [app read_Z]. rewrite decide_True by done. rewrite read_write_uint by done.
    destruct d; [done | cbv beta iota; by rewrite Hn ..].
Qed.

Lemma doc_ind' (P : doc → Prop) :
  P DNull → (∀ b, P (DBool b)) → (∀ n, P (DNum n)) → (∀ s, P (DStr s)) →
  (∀ items, Forall P items → P (DArr items)) →
  (∀ members, Forall (λ kv, P kv.2) members → P (DObj members)) →
  ∀ d, P d.
Proof.
  intros Hnull Hbool Hnum Hstr Harr Hobj. fix IH 1. intros [| b | n | s | items | members].
  - apply Hnull.
  - apply Hbool.
  - apply Hnum.
  - apply Hstr.
  - apply Harr. induction items as [|x items IHitems]; constructor; [apply IH | apply IHitems].
  - apply Hobj. induction members as [|[k v] members IHm]; constructor; [apply IH | apply IHm].
Qed.

Lemma strip_prefix_app p r : strip_prefix p (p ++ r) = Some r.
Proof.
  unfold strip_prefix. rewrite take_app_length, drop_app_length. by rewrite decide_True.
Qed.

Lemma skip_ws_head c s : is_ws c = false → skip_ws (c :: s) = c :: s.
Proof. simpl. by intros ->. Qed.


Lemma digit_value_start c : is_Some (digit_of c) → value_start c.
Proof.
  unfold digit_of. intros [digit Hc].
  repeat case_decide; subst; try done; by repeat split.
Qed.

Lemma write_doc_head d s : ∃ c s', write_doc d ++ s = c :: s' ∧ value_start c.
Proof.
  destruct d as [| [|] | n | str | [|x items] | [|[k v] members]];
    try (eexists _, _; split; [reflexivity | by repeat split]).
  simpl. unfold write_Z. pose proof (Z_to_int_nonnil n) as Hnil.
  destruct (Z.to_int n) as [d | d].
  - destruct (write_uint_head d s Hnil) as (c & s' & Heq & Hc).
    exists c, s'. split; [done |]. by apply digit_value_start.
  - eexists _, _; split; [reflexivity | by repeat split].
Qed.

Lemma skip_ws_write_doc d s : skip_ws (write_doc d ++ s) = write_doc d ++ s.
Proof.
  destruct (write_doc_head d s) as (c & s' & -> & Hws & _). by apply skip_ws_head.
Qed.

Ltac option_steps := cbn [mbind option_bind fst snd].

Lemma parse_member_write parse k v r :
  parse (write_doc v ++ r) = Some (v, r) →
  parse_member parse (write_string k ++ ":"%char :: write_doc v ++ r) = Some ((k, v), r).
Proof.
  intros Hv. unfold parse_member, write_string.
  cbn [app]. rewrite skip_ws_head by done. rewrite decide_True by done.
  rewrite <- app_assoc. cbn [app]. rewrite read_string_escape. option_steps.
  rewrite skip_ws_head by done. rewrite decide_True by done. rewrite Hv. option_steps.
  by rewrite String.string_of_list_ascii_of_string.
Qed.

Lemma parse_items_tail_write items :
  Forall parses items →
  ∀ (fuel : nat) r, (tail_size doc_size items ≤ fuel)%nat →
    parse_items_tail fuel (write_items_tail write_doc items ++ r) = Some (items, r).
Proof.
  induction 1 as [|y items Hy _ IH]; intros [|fuel] r Hfuel; simpl in Hfuel; try lia.
  - done.
  - cbn [write_items_tail app parse_items_tail].
    rewrite skip_ws_head by done. rewrite decide_False by done. rewrite decide_True by done.
    rewrite <- app_assoc, Hy; [| lia |].
    + option_steps. rewrite IH by lia. done.
    + by destruct items.
Qed.

Lemma parse_members_tail_write members :
  Forall (λ kv, parses kv.2) members →
  ∀ (fuel : nat) r, (members_tail_size doc_size members ≤ fuel)%nat →
    parse_members_tail fuel (write_members_tail write_doc members ++ r) = Some (members, r).
Proof.
  induction 1 as [|[k v] members Hv _ IH]; intros [|fuel] r Hfuel; simpl in Hfuel; try lia.
  - done.
  - cbn [write_members_tail app parse_members_tail].
    rewrite skip_ws_head by done. rewrite decide_False by done. rewrite decide_True by done.
    rewrite <- !app_assoc. cbn [app]. rewrite <- app_assoc.
    rewrite parse_member_write.
    + option_steps. rewrite IH by lia. done.
    + apply Hv; [simpl; lia |]. by destruct members as [|[??]?].
Qed.

Lemma write_Z_head n r :
  ∃ c s', write_Z n ++ r = c :: s' ∧ (c = "-"%char ∨ is_Some (digit_of c)).
Proof.
  unfold write_Z. pose proof (Z_to_int_nonnil n) as Hnil.
  destruct (Z.to_int n) as [d | d].
  - destruct (write_uint_head d r Hnil) as (c & s' & Heq & Hc). eauto.
  - eexists _, _. split; [reflexivity | by left].
Qed.

Lemma number_start c :
  c = "-"%char ∨ is_Some (digit_of c) →
  is_ws c = false ∧ c ≠ "n"%char ∧ c ≠ "t"%char ∧ c ≠ "f"%char
  ∧ c ≠ quote ∧ c ≠ "["%char ∧ c ≠ "{"%char.
Proof.
  intros [-> | [digit Hc]]; [by repeat split |].
  unfold digit_of in Hc. repeat case_decide; subst; try done; by repeat split.
Qed.

Lemma parse_write_doc d : parses d.
Proof.
  induction d as [| b | n | s | items IH | members IH] using doc_ind';
    intros fuel r Hfuel Hr.
  - destruct fuel as [|fuel]; [simpl in Hfuel; lia | done].
  - destruct fuel as [|fuel]; [simpl in Hfuel; lia | by destruct b].
  - destruct fuel as [|fuel]; [simpl in Hfuel; lia |].
    destruct (write_Z_head n r) as (c & s' & Heq & Hc).
    apply number_start in Hc as (Hws & ? & ? & ? & ? & ? & ?).
    cbn [parse_value write_doc]. rewrite Heq, skip_ws_head by done.
    rewrite !decide_False by done. rewrite <- Heq, read_write_Z by done. done.
  - destruct fuel as [|fuel]; [simpl in Hfuel; lia |].
    cbn [parse_value write_doc]. unfold write_string. cbn [app].
    rewrite skip_ws_head by done. rewrite !decide_False by done.
    rewrite decide_True by done. rewrite <- app_assoc. cbn [app].
    rewrite read_string_escape. option_steps.
    by rewrite String.string_of_list_ascii_of_string.
  - destruct items as [|x items]; (destruct fuel as [|fuel]; [simpl in Hfuel; lia |]).
    { change (write_doc (DArr []) ++ r) with ("["%char :: "]"%char :: r).
      cbn [parse_value]. rewrite skip_ws_head by done.
      rewrite !decide_False by done. rewrite decide_True by done.
      rewrite skip_ws_head by done. by rewrite decide_True. }
    apply Forall_cons in IH as [Hx Hitems]. simpl in Hfuel.
    cbn [parse_value write_doc app]. rewrite skip_ws_head by done.
    rewrite !decide_False by done. rewrite decide_True by done.
    rewrite <- app_assoc.
    destruct (write_doc_head x (write_items_tail write_doc items ++ r))
      as (c & s' & Heq & Hws & Hc & _).
    rewrite Heq at 1. rewrite skip_ws_head by done. rewrite decide_False by done.
    rewrite Hx; [| lia | by destruct items].
    option_steps. rewrite (parse_items_tail_write items Hitems) by lia. done.
  - destruct members as [|[k v] members];
      (destruct fuel as [|fuel]; [simpl in Hfuel; lia |]).
    { change (write_doc (DObj []) ++ r) with ("{"%char :: "}"%char :: r).
      cbn [parse_value]. rewrite skip_ws_head by done.
      rewrite !decide_False by done. rewrite decide_True by done.
      rewrite skip_ws_head by done. by rewrite decide_True. }
    apply Forall_cons in IH as [Hv Hmembers]. simpl in Hfuel, Hv.
    cbn [parse_value write_doc app]. rewrite skip_ws_head by done.
    rewrite !decide_False by done. rewrite decide_True by done.
    unfold write_string at 1. cbn [app]. rewrite skip_ws_head by done.
    rewrite decide_False by done. fold (write_string k).
    rewrite <- !app_assoc. cbn [app]. rewrite <- app_assoc.
    rewrite parse_member_write.
    + option_steps. rewrite (parse_members_tail_write members Hmembers) by lia. done.
    + apply Hv; [lia |]. by destruct members as [|[??]?].
Qed.

Lemma json_size_field (fields : gmap string json) k v :
  fields !! k = Some v → json_size v < json_size (JObj fields).
Proof.
  intros Hk. cbn [json_size].
  rewrite (map_fold_delete_L _ _ k v fields); [lia | | done].
  intros. lia.
Qed.

Lemma json_size_item (items : list json) x :
  x ∈ items → json_size x < json_size (JArr items).
Proof.
  cbn [json_size]. induction items as [|y items IH]; [by intros ?%elem_of_nil |].
  cbn [sum_list_with].
  intros [-> | Hin]%elem_of_cons; [lia |]. specialize (IH Hin). lia.
Qed.

Lemma json_ind' (P : json → Prop) :
  P JNull → (∀ b, P (JBool b)) → (∀ n, P (JNum n)) → (∀ s, P (JStr s)) →
  (∀ items, Forall P items → P (JArr items)) →
  (∀ fields, map_Forall (λ _, P) fields → P (JObj fields)) →
  ∀ j, P j.
Proof.
  intros Hnull Hbool Hnum Hstr Harr Hobj j.
  remember (json_size j) as size eqn:Hsize. revert j Hsize.
  induction (lt_wf size) as [size _ IH]. intros [| b | n | s | items | fields] ->.
  - apply Hnull.
  - apply Hbool.
  - apply Hnum.
  - apply Hstr.
  - apply Harr, Forall_forall. intros x Hx.
    apply (IH (json_size x)); [by apply json_size_item | done].
  - apply Hobj. intros k v Hk.
    apply (IH (json_size v)); [by apply (json_size_field fields k) | done].
Qed.

Lemma doc_to_json_to_doc j : doc_to_json (json_to_doc j) = j.
Proof.
  induction j as [| b | n | s | items IH | fields IH] using json_ind'; try done.
  - cbn [json_to_doc doc_to_json]. f_equal. rewrite <- list_fmap_compose.
    rewrite <- (list_fmap_id items) at 2. apply Forall_fmap_ext. exact IH.
  - cbn [json_to_doc doc_to_json]. f_equal.
    rewrite <- fmap_reverse, list_to_map_fmap.
    rewrite (list_to_map_proper _ (map_to_list (json_to_doc <$> fields))).
    + rewrite list_to_map_to_list, <- map_fmap_compose.
      rewrite <- (map_fmap_id fields) at 2. apply map_fmap_ext.
      intros k v Hk. by apply IH in Hk.
    + rewrite fmap_reverse, reverse_Permutation. apply NoDup_fst_map_to_list.
    + apply reverse_Permutation.
Qed.

Lemma doc_size_le_length d : (doc_size d ≤ length (write_doc d))%nat.
Proof.
  induction d as [| b | n | s | items IH | members IH] using doc_ind'.
  - simpl. lia.
  - destruct b; simpl; lia.
  - destruct (write_Z_head n []) as (c & s' & Heq & _).
    rewrite app_nil_r in Heq. cbn [write_doc doc_size]. rewrite Heq. simpl. lia.
  - cbn [write_doc doc_size]. unfold write_string. simpl. lia.
  - destruct items as [|x items]; [simpl; lia |].
    apply Forall_cons in IH as [Hx Hitems]. cbn [write_doc doc_size].
    rewrite length_cons, length_app.
    assert (tail_size doc_size items ≤ length (write_items_tail write_doc items))%nat.
    { induction Hitems as [|y items Hy _ IHitems]; simpl; [lia |].
      rewrite length_app. lia. }
    lia.
  - destruct members as [|[k v] members]; [simpl; lia |].
    apply Forall_cons in IH as [Hv Hmembers]. cbn [write_doc doc_size].
    rewrite length_cons, length_app, length_cons, length_app. simpl in Hv.
    assert (members_tail_size doc_size members
            ≤ length (write_members_tail write_doc members))%nat.
    { induction Hmembers as [|[k' v'] members Hv' _ IHm]; [simpl; lia |].
      cbn [members_tail_size write_members_tail snd] in *.
      rewrite length_cons, length_app, length_cons, length_app. lia. }
    lia.
Qed.

Theorem mini_json_loads_dumps j : mini_json_loads (mini_json_dumps j) = Some j.
Proof.
  unfold mini_json_loads, mini_json_dumps.
  rewrite String.list_ascii_of_string_of_list_ascii.
  rewrite <- (app_nil_r (write_doc (json_to_doc j))) at 2.
  rewrite parse_write_doc; [| apply doc_size_le_length | done].
  cbn. by rewrite doc_to_json_to_doc.
Qed.

End json_text.

(** * The claims about the cycle *)

Section cycle_claims.

Variable html_parser : string → option (list PageElement).
Variable json_dumps : json → string.
Variable json_loads : string → option json.

(** C6: when the fetch of one of the URLs fails, by a network error or by a
    status that is not a success, the cycle ends with an exception whatever
    the order in which the tasks are resumed: it returns no result, and the
    cache file is left as it was, also for the URLs whose fetch succeeded. *)
Theorem do_diff_fetch_failure_aborts (env : Env) (cache_file : file)
    (urls : list string) (order : list nat) (url : string) :
  schedule urls order → url ∈ urls → fetch_fails env url →
  ∃ exn,
    do_diff html_parser json_dumps json_loads env cache_file urls order
    = (Raise exn, cache_file).
Proof.
  intros Hschedule Hurl Hfails. unfold do_diff.
  destruct (load_cache json_loads cache_file) as [cache | exn]; [| by exists exn].
  destruct (schedule_runs_every_task urls order url Hschedule Hurl) as (i & Hi & Hlookup).
  unfold gather.
  destruct (run_tasks_fetch_fails html_parser env urls order 0 cache
              (replicate (length urls) None) i url Hi Hlookup Hfails) as [exn ->].
  by exists exn.
Qed.

(** C7, as the code has it: loading the cache gives the empty mapping when
    the cache file is absent; a file that cannot be read, or whose text is
    not JSON, makes the load raise. *)
Theorem load_cache_cases :
  load_cache json_loads Missing = Ok (CacheDict ∅)
  ∧ load_cache json_loads Unreadable = Raise PermissionError
  ∧ ∀ s, json_loads s = None → load_cache json_loads (Content s) = Raise JSONDecodeError.
Proof.
  split; [done |]. split; [done |].
  intros s Hs. unfold load_cache. simpl. by rewrite Hs.
Qed.

(** C8, as the code has it: for a URL with no entry in the cache and a
    successful fetch, what [diff_url] does depends on what the parser makes
    of the fetched content.  Content it accepts and that does not parse to
    the empty document gives a result whose old timestamp is [datetime.min]
    and whose only differentiating element pairs the empty document with
    the fetched one.  Content that parses to the empty document gives the
    same result with no differentiating element.  In both cases the cache
    then holds the fetched content for the URL.  Content the parser rejects
    makes [diff_url] raise [ParserRejectedMarkup]. *)
Theorem diff_url_first_sight (env : Env) (tick : nat) (url : string)
    (m : gmap string cache_value) (r : Response) :
  client_get env url = Ok r →
  is_success r = true →
  m !! url = None →
  html_parser "" = Some [] →
  (∀ contents, html_parser (text r) = Some contents → contents ≠ [] →
     diff_url html_parser env tick url (CacheDict m)
     = Ok (mkUrlDiff url
             [mkDifferentiatingElement (document []) (document contents)]
             datetime_min
             (now_isoformat env (S tick)),
           CacheDict (<[url := EntryObject (mkCacheEntry (text r) (now_isoformat env tick))]> m)))
  ∧ (html_parser (text r) = Some [] →
     diff_url html_parser env tick url (CacheDict m)
     = Ok (mkUrlDiff url [] datetime_min (now_isoformat env (S tick)),
           CacheDict (<[url := EntryObject (mkCacheEntry (text r) (now_isoformat env tick))]> m)))
  ∧ (html_parser (text r) = None →
     diff_url html_parser env tick url (CacheDict m) = Raise ParserRejectedMarkup).
Proof.
  intros Hget Hok Hnone Hempty. split; [| split].
  - intros contents Hpage Hcontents.
    rewrite (diff_url_dict_entry html_parser env tick url m r ∅ "" [] contents Hget Hok);
      [| by rewrite Hnone | done | done | done].
    rewrite lookup_empty. cbn [from_option]. do 2 f_equal. f_equal.
    apply compare_html_at_node.
    + unfold document. intros [= Heq]. by apply Hcontents.
    + unfold findChildren, document. cbn [tag_contents tags_of]. constructor.
  - intros Hpage.
    rewrite (diff_url_dict_entry html_parser env tick url m r ∅ "" [] [] Hget Hok);
      [| by rewrite Hnone | done | done | done].
    rewrite lookup_empty. cbn [from_option]. by rewrite compare_html_eq.
  - intros Hpage.
    apply (diff_url_rejected_markup html_parser env tick url m r ∅ "" Hget Hok);
      [by rewrite Hnone | done | by right].
Qed.

(** C9: writing a cache mapping to the cache file and loading it back gives
    a mapping with the same URLs and, for each URL, the same content and the
    same timestamp, provided the JSON text format reads back what it
    writes. *)
Theorem save_load_round_trip (m : gmap string cache_value) :
  (∀ j, json_loads (json_dumps j) = Some j) →
  ∃ m',
    load_cache json_loads (save_cache json_dumps (CacheDict m)) = Ok (CacheDict m')
    ∧ dom m' = dom m
    ∧ ∀ url v, m !! url = Some v →
        ∃ v', m' !! url = Some v'
          ∧ value_html v' = value_html v
          ∧ value_timestamp v' = value_timestamp v.
Proof.
  intros Hlaw. exists (FromJson <$> (encode_value <$> m)).
  split; [by apply load_save_cache |]. split; [by rewrite !dom_fmap_L |].
  intros url v Hv. exists (FromJson (encode_value v)).
  rewrite !lookup_fmap, Hv. split; [done |].
  split; [apply value_html_encode | apply value_timestamp_encode].
Qed.

End cycle_claims.

(** * The cycle in the sample world *)

Lemma do_diff_fetch_failure_aborts_witness :
  ∃ exn,
    do_diff mini_html_parser mini_json_dumps mini_json_loads
      (sample_env {["http://a" := mkResponse 200 hello_page;
                    "http://b" := mkResponse 404 "gone"]})
      Missing ["http://a"; "http://b"] [0; 1]
    = (Raise exn, Missing).
Proof.
  apply (do_diff_fetch_failure_aborts mini_html_parser mini_json_dumps mini_json_loads
           _ Missing ["http://a"; "http://b"] [0; 1] "http://b").
  - unfold schedule. reflexivity.
  - apply list_elem_of_further, list_elem_of_here.
  - reflexivity.
Defined.

Lemma load_cache_cases_witness :
  mini_json_loads "{" = None
  ∧ load_cache mini_json_loads (Content "{") = Raise JSONDecodeError.
Proof.
  split; [reflexivity |].
  apply (load_cache_cases mini_json_loads). reflexivity.
Defined.

(** C7 as stated fails: an unreadable cache file, and a cache file whose
    text is not JSON, make the load raise instead of giving the empty
    mapping. *)
Lemma load_cache_raises :
  load_cache mini_json_loads Unreadable = Raise PermissionError
  ∧ load_cache mini_json_loads (Content "{") = Raise JSONDecodeError
  ∧ load_cache mini_json_loads Unreadable ≠ Ok (CacheDict ∅)
  ∧ load_cache mini_json_loads (Content "{") ≠ Ok (CacheDict ∅).
Proof. repeat split; (reflexivity || discriminate). Qed.

Lemma diff_url_first_sight_witness :
  ∃ contents,
    mini_html_parser hello_page = Some contents
    ∧ contents ≠ []
    ∧ diff_url mini_html_parser (sample_env {["http://a" := mkResponse 200 hello_page]})
        0 "http://a" (CacheDict ∅)
      = Ok (mkUrlDiff "http://a"
              [mkDifferentiatingElement (document []) (document contents)]
              datetime_min
              (sample_clock 1),
            CacheDict (<["http://a" := EntryObject (mkCacheEntry hello_page (sample_clock 0))]> ∅)).
Proof.
  eexists. split; [vm_compute; reflexivity |]. split; [discriminate |].
  destruct (diff_url_first_sight mini_html_parser
              (sample_env {["http://a" := mkResponse 200 hello_page]})
              0 "http://a" ∅ (mkResponse 200 hello_page)) as [Hfirst _];
    [reflexivity | reflexivity | reflexivity | reflexivity |].
  apply Hfirst; [vm_compute; reflexivity | discriminate].
Defined.

(** C8 as stated fails: when the server answers a first fetch with an empty
    body, the fetched document is the empty document and no differentiating
    element is returned; when it answers with a markup the parser rejects,
    [diff_url] raises [ParserRejectedMarkup] and returns no result. *)
Lemma diff_url_first_sight_no_pair :
  diff_url mini_html_parser (sample_env {["http://a" := mkResponse 200 ""]})
    0 "http://a" (CacheDict ∅)
  = Ok (mkUrlDiff "http://a" [] datetime_min (sample_clock 1),
        CacheDict (<["http://a" := EntryObject (mkCacheEntry "" (sample_clock 0))]> ∅))
  ∧ diff_url mini_html_parser (sample_env {["http://a" := mkResponse 200 "<![ a"]})
      0 "http://a" (CacheDict ∅)
    = Raise ParserRejectedMarkup.
Proof. split; reflexivity. Qed.

Lemma save_load_round_trip_witness :
  ∃ m',
    load_cache mini_json_loads
      (save_cache mini_json_dumps
         (CacheDict {["http://a" := EntryObject (mkCacheEntry hello_page (sample_clock 0))]}))
    = Ok (CacheDict m')
    ∧ dom m' = dom ({["http://a" := EntryObject (mkCacheEntry hello_page (sample_clock 0))]}
                     : gmap string cache_value)
    ∧ ∀ url v,
        ({["http://a" := EntryObject (mkCacheEntry hello_page (sample_clock 0))]}
           : gmap string cache_value) !! url = Some v →
        ∃ v', m' !! url = Some v'
          ∧ value_html v' = value_html v
          ∧ value_timestamp v' = value_timestamp v.
Proof.
  apply (save_load_round_trip mini_json_dumps mini_json_loads
           {["http://a" := EntryObject (mkCacheEntry hello_page (sample_clock 0))]}).
  apply mini_json_loads_dumps.
Defined.

(** C5 fails on the code: a URL whose cache value is a [CacheEntry] object
    makes [diff_url] raise [AttributeError] after a successful fetch and
    leaves the cache as it was.  A cycle meets such a value as soon as a URL
    is listed twice: the first task stores the object, the second one looks
    [get] up on it, and the cycle ends without writing the cache file. *)
Theorem diff_url_entry_object_raises :
  diff_url mini_html_parser (sample_env {["http://a" := mkResponse 200 hello_page]})
    0 "http://a"
    (CacheDict {["http://a" := EntryObject (mkCacheEntry "<p>old</p>" (sample_clock 0))]})
  = Raise AttributeError
  ∧ do_diff mini_html_parser mini_json_dumps mini_json_loads
      (sample_env {["http://a" := mkResponse 200 hello_page]})
      Missing ["http://a"; "http://a"] [0; 1]
    = (Raise AttributeError, Missing).
Proof. split; reflexivity. Qed.

(** The cycle on the first sight of a page and on the next, unchanged,
    sight of it. *)
Example do_diff_first_sight :
  do_diff mini_html_parser mini_json_dumps mini_json_loads
    (sample_env {["http://a" := mkResponse 200 hello_page]}) Missing ["http://a"] [0]
  = (Ok [mkUrlDiff "http://a"
           [mkDifferentiatingElement
              (document [])
              (document
                 [inr (mkTag "html" ∅ [inr (mkTag "body" ∅ [inl "hi"])])])]
           datetime_min (sample_clock 1)],
     save_cache mini_json_dumps
       (CacheDict {["http://a" := EntryObject (mkCacheEntry hello_page (sample_clock 0))]})).
Proof. vm_compute. reflexivity. Qed.

Example do_diff_no_change :
  (do_diff mini_html_parser mini_json_dumps mini_json_loads
     (sample_env {["http://a" := mkResponse 200 hello_page]})
     (save_cache mini_json_dumps
        (CacheDict {["http://a" := EntryObject (mkCacheEntry hello_page (sample_clock 0))]}))
     ["http://a"] [0]).1
  = Ok [mkUrlDiff "http://a" [] (old_time_of (JStr (sample_clock 0))) (sample_clock 1)].
Proof. vm_compute. reflexivity. Qed.

(** A page the parser rejects ends the cycle with [ParserRejectedMarkup]
    and leaves the cache file as it was. *)
Example do_diff_rejected_markup :
  do_diff mini_html_parser mini_json_dumps mini_json_loads
    (sample_env {["http://a" := mkResponse 200 "<![ a"]}) Missing ["http://a"] [0]
  = (Raise ParserRejectedMarkup, Missing).
Proof. vm_compute. reflexivity. Qed.

(** * More about [compare_html] *)

Section compare_html_pairs.

Implicit Types (t c old_html new_html : Tag) (d : DifferentiatingElement).

Lemma elem_of_children_diffs d (olds news : list Tag) :
  d ∈ concat (zip_with compare_html olds news) →
  ∃ i c c', olds !! i = Some c ∧ news !! i = Some c' ∧ d ∈ compare_html c c'.
Proof.
  revert news. induction olds as [|o olds IH]; intros [|n news]; simpl;
    try (by intros ?%elem_of_nil).
  intros [Hd | Hd]%elem_of_app.
  - by exists 0, o, n.
  - destruct (IH news Hd) as (i & c & c' & ? & ? & ?). by exists (S i), c, c'.
Qed.

(** Reasoning on the pairs [compare_html] returns: a pair is the pair of
    the two trees compared, whose paired children are then equal, or it comes
    from the comparison of two children at the same position. *)
Lemma compare_html_pairs_ind (Q : Tag → Tag → DifferentiatingElement → Prop) :
  (∀ old_html new_html,
     old_html ≠ new_html →
     Forall (λ p, p.1 = p.2) (zip (findChildren old_html) (findChildren new_html)) →
     Q old_html new_html (mkDifferentiatingElement old_html new_html)) →
  (∀ old_html new_html i c c' d,
     old_html ≠ new_html →
     findChildren old_html !! i = Some c → findChildren new_html !! i = Some c' →
     d ∈ compare_html c c' → Q c c' d → Q old_html new_html d) →
  ∀ old_html new_html d, d ∈ compare_html old_html new_html → Q old_html new_html d.
Proof.
  intros Hnode Hchild old_html.
  induction old_html as [name attrs cs IH] using Tag_ind'. intros new_html d.
  rewrite compare_html_unfold.
  destruct (Tag_eqb (mkTag name attrs cs) new_html) eqn:Heq; [by intros ?%elem_of_nil |].
  apply Tag_eqb_neq in Heq. cbn zeta.
  destruct (concat _) as [|d0 ds] eqn:Hdiff.
  - intros ->%list_elem_of_singleton. apply Hnode; [done |]. by apply children_diffs_nil.
  - rewrite <- Hdiff. intros (i & c & c' & Hc & Hc' & Hd)%elem_of_children_diffs.
    apply (Hchild _ _ i c c' d); try done.
    rewrite Forall_lookup in IH. by apply (IH i c Hc).
Qed.

Lemma Tag_eqb_sym t t' : Tag_eqb t t' = Tag_eqb t' t.
Proof.
  destruct (Tag_eqb t t') eqn:H.
  - apply Tag_eqb_eq in H as ->. by rewrite Tag_eqb_refl.
  - symmetry. apply Tag_eqb_neq. apply Tag_eqb_neq in H. congruence.
Qed.

Lemma compare_html_swap old_html new_html :
  compare_html new_html old_html = swap_pair <$> compare_html old_html new_html.
Proof.
  revert new_html. induction old_html as [name attrs cs IH] using Tag_ind'. intros new_html.
  rewrite (compare_html_unfold new_html), (compare_html_unfold (mkTag name attrs cs)).
  rewrite (Tag_eqb_sym new_html). destruct (Tag_eqb _ new_html); [done |]. cbn zeta.
  assert (concat (zip_with compare_html (findChildren new_html) (findChildren (mkTag name attrs cs)))
          = swap_pair <$> concat (zip_with compare_html (findChildren (mkTag name attrs cs))
                                    (findChildren new_html))) as ->.
  { unfold findChildren at 2 3. cbn [tag_contents].
    generalize (findChildren new_html). intros news.
    revert news. induction IH as [|o olds Ho _ IHolds]; intros [|n news]; simpl; try done.
    by rewrite fmap_app, Ho, IHolds. }
  by destruct (concat _).
Qed.

Lemma children_diffs_length_le (olds news : list Tag) :
  Forall (λ o, ∀ n, length (compare_html o n) ≤ Tag_size o)%nat olds →
  (length (concat (zip_with compare_html olds news)) ≤ sum_list_with Tag_size olds)%nat.
Proof.
  intros Hall. revert news. induction Hall as [|o olds Ho _ IH]; intros [|n news]; simpl;
    try lia.
  rewrite length_app. specialize (Ho n). specialize (IH news). lia.
Qed.

Lemma Tag_size_children t : Tag_size t = S (sum_list_with Tag_size (findChildren t)).
Proof.
  destruct t as [name attrs cs]. unfold findChildren. cbn [tag_contents Tag_size]. f_equal.
  induction cs as [|[s|c] cs IH]; simpl; [done | done | by rewrite IH].
Qed.

Lemma compare_html_length_old old_html new_html :
  (length (compare_html old_html new_html) ≤ Tag_size old_html)%nat.
Proof.
  revert new_html. induction old_html as [name attrs cs IH] using Tag_ind'. intros new_html.
  rewrite compare_html_unfold, (Tag_size_children (mkTag name attrs cs)).
  destruct (Tag_eqb _ new_html); [simpl; lia |]. cbn zeta.
  pose proof (children_diffs_length_le (findChildren (mkTag name attrs cs))
                (findChildren new_html) IH) as Hle.
  destruct (concat _); simpl in *; lia.
Qed.

End compare_html_pairs.

(** X1: [compare_html] returns the empty list exactly when its test
    [old_html == new_html] holds, where [==] is the equality of bs4: the
    same name, the same attributes and the same contents, a piece of text
    being compared by its characters only.  When the test fails the result
    has at least one pair, whatever the children are. *)
Theorem compare_html_empty_iff_equal (old_html new_html : Tag) :
  compare_html old_html new_html = [] ↔ Tag_eqb old_html new_html = true.
Proof. rewrite Tag_eqb_eq. apply compare_html_nil. Qed.

(** X2: the two members of every pair [compare_html] returns are different
    trees. *)
Theorem compare_html_pairs_differ (old_html new_html : Tag) (d : DifferentiatingElement) :
  d ∈ compare_html old_html new_html → old d ≠ new d.
Proof.
  apply (compare_html_pairs_ind (λ _ _ d, old d ≠ new d)); [by intros |].
  by intros.
Qed.

Lemma compare_html_pairs_differ_witness :
  old (mkDifferentiatingElement (p_elem "B") (p_elem "C"))
  ≠ new (mkDifferentiatingElement (p_elem "B") (p_elem "C")).
Proof.
  apply (compare_html_pairs_differ (div_doc "B") (div_doc "C")).
  rewrite compare_html_nested_change. apply list_elem_of_here.
Defined.

(** X3: the two members of every returned pair sit at the same position of
    the two documents: one path of child positions leads from the old root
    to the old member and from the new root to the new member. *)
Theorem compare_html_pairs_correspond (old_html new_html : Tag) (d : DifferentiatingElement) :
  d ∈ compare_html old_html new_html →
  ∃ path, subtree_at old_html path = Some (old d) ∧ subtree_at new_html path = Some (new d).
Proof.
  apply (compare_html_pairs_ind
           (λ o n d, ∃ path, subtree_at o path = Some (old d) ∧ subtree_at n path = Some (new d))).
  - intros o n _ _. by exists [].
  - intros o n i c c' d' _ Hc Hc' _ (path & Hold & Hnew). exists (i :: path).
    cbn [subtree_at]. rewrite Hc, Hc'. done.
Qed.

Lemma compare_html_pairs_correspond_witness :
  ∃ path,
    subtree_at (div_doc "B") path = Some (p_elem "B")
    ∧ subtree_at (div_doc "C") path = Some (p_elem "C").
Proof.
  apply (compare_html_pairs_correspond (div_doc "B") (div_doc "C")
           (mkDifferentiatingElement (p_elem "B") (p_elem "C"))).
  rewrite compare_html_nested_change. apply list_elem_of_here.
Defined.

(** X4: a returned pair cannot be narrowed further: the element children of
    its two members, paired by position, are equal. *)
Theorem compare_html_pairs_innermost (old_html new_html : Tag) (d : DifferentiatingElement) :
  d ∈ compare_html old_html new_html →
  Forall (λ p, p.1 = p.2) (zip (findChildren (old d)) (findChildren (new d))).
Proof.
  apply (compare_html_pairs_ind
           (λ _ _ d, Forall (λ p, p.1 = p.2) (zip (findChildren (old d)) (findChildren (new d)))));
    [by intros |].
  by intros.
Qed.

Lemma compare_html_pairs_innermost_witness :
  Forall (λ p : Tag * Tag, p.1 = p.2)
    (zip (findChildren (mkTag "div" ∅ [inr (p_elem "A")])) (findChildren (div_doc "B"))).
Proof.
  apply (compare_html_pairs_innermost (mkTag "div" ∅ [inr (p_elem "A")]) (div_doc "B")
           (mkDifferentiatingElement (mkTag "div" ∅ [inr (p_elem "A")]) (div_doc "B"))).
  vm_compute. apply list_elem_of_here.
Defined.

(** X5: comparing the two documents the other way round returns the same
    pairs, in the same order, each read the other way round. *)
Theorem compare_html_symmetric (old_html new_html : Tag) :
  compare_html new_html old_html = swap_pair <$> compare_html old_html new_html.
Proof. apply compare_html_swap. Qed.

(** X6: [compare_html] never returns more pairs than the smaller of the two
    documents has elements. *)
Theorem compare_html_length_bound (old_html new_html : Tag) :
  (length (compare_html old_html new_html) ≤ Tag_size old_html `min` Tag_size new_html)%nat.
Proof.
  apply Nat.min_glb; [apply compare_html_length_old |].
  rewrite <- (length_fmap swap_pair), <- compare_html_swap. apply compare_html_length_old.
Qed.

(** * Whole cycles *)

Section cycle_runs.

Variable html_parser : string → option (list PageElement).
Variable json_dumps : json → string.
Variable json_loads : string → option json.

Implicit Types (env : Env) (m : gmap string cache_value) (cache : cache_obj).
Implicit Types (r : Response) (e : CacheEntry) (v : cache_value) (d : UrlDiff).

Lemma cached_html_insert_ne m u u' e :
  u ≠ u' → cached_html (<[u := EntryObject e]> m) u' = cached_html m u'.
Proof. intros Hne. unfold cached_html. by rewrite lookup_insert_ne. Qed.

Lemma cached_timestamp_insert_ne m u u' e :
  u ≠ u' → cached_timestamp (<[u := EntryObject e]> m) u' = cached_timestamp m u'.
Proof. intros Hne. unfold cached_timestamp. by rewrite lookup_insert_ne. Qed.

Lemma cached_html_entry_object m u e :
  m !! u = Some (EntryObject e) → cached_html m u = None.
Proof. intros Hu. unfold cached_html. by rewrite Hu. Qed.

(** [diff_url] returns exactly when the fetch succeeds, the cache holds a
    markup for the URL and the parser accepts that markup and the fetched
    one; it then returns the comparison of the two documents. *)
Lemma diff_url_dict_returns env tick u m d cache' :
  diff_url html_parser env tick u (CacheDict m) = Ok (d, cache') ↔
  ∃ r old_html_str old_contents new_contents,
    client_get env u = Ok r ∧ is_success r = true
    ∧ cached_html m u = Some old_html_str
    ∧ html_parser old_html_str = Some old_contents
    ∧ html_parser (text r) = Some new_contents
    ∧ d = mkUrlDiff u
            (compare_html (document old_contents) (document new_contents))
            (cached_timestamp m u)
            (now_isoformat env (S tick))
    ∧ cache' = CacheDict (<[u := EntryObject (mkCacheEntry (text r) (now_isoformat env tick))]> m).
Proof.
  unfold diff_url, cached_html, cached_timestamp, raise_for_status. split.
  - destruct (client_get env u) as [r | exn]; simpl; [| done].
    destruct (is_success r) eqn:Hok; simpl; [| done].
    destruct (default (FromJson (JObj ∅)) (m !! u)) as [[| | | | | fields] | e]; simpl; try done.
    destruct (default (JStr "") (fields !! "html")) as [| | | s | |]; simpl; try done.
    destruct (html_parser s) as [old_contents |] eqn:Hold; simpl; [| done].
    destruct (html_parser (text r)) as [new_contents |] eqn:Hnew; simpl; [| done].
    intros [= <- <-]. by exists r, s, old_contents, new_contents.
  - intros (r & s & old_contents & new_contents & -> & Hok & Hentry & Hold & Hnew & -> & ->).
    simpl. rewrite Hok. simpl.
    destruct (default (FromJson (JObj ∅)) (m !! u)) as [[| | | | | fields] | e]; simpl in *;
      try done.
    destruct (default (JStr "") (fields !! "html")) as [| | | s' | |]; simpl in *; try done.
    injection Hentry as ->. rewrite Hold. simpl. by rewrite Hnew.
Qed.

Lemma diff_url_not_a_dict env tick u j :
  ∃ exn, diff_url html_parser env tick u (NotADict j) = Raise exn.
Proof.
  unfold diff_url, raise_for_status.
  destruct (client_get env u) as [r | exn]; simpl; [| by eexists].
  destruct (is_success r); simpl; by eexists.
Qed.

Lemma run_tasks_not_a_dict env urls order tick j slots i u :
  i ∈ order → urls !! i = Some u →
  ∃ exn, run_tasks html_parser env urls order tick (NotADict j) slots = Raise exn.
Proof.
  intros Hin Hu. induction order as [|k order IH]; [by apply elem_of_nil in Hin |].
  cbn [run_tasks]. destruct (urls !! k) as [uk |] eqn:Hk.
  - destruct (diff_url_not_a_dict env tick uk j) as [exn ->]. by exists exn.
  - apply IH. apply elem_of_cons in Hin as [-> | Hin]; [congruence | done].
Qed.

(** What a run of the tasks that ends without an exception has done. *)
Lemma run_tasks_returns env urls order tick m slots slots' cache' :
  run_tasks html_parser env urls order tick (CacheDict m) slots = Ok (slots', cache') →
  ∃ m', cache' = CacheDict m'
    ∧ length slots' = length slots
    ∧ (∀ u, (∀ i, i ∈ order → urls !! i ≠ Some u) → m' !! u = m !! u)
    ∧ (∀ k, k ∉ order → slots' !! k = slots !! k)
    ∧ (∀ i j u, i ∈ order → j ∈ order →
         urls !! i = Some u → urls !! j = Some u → i = j)
    ∧ (∀ i u, i ∈ order → urls !! i = Some u →
         ∃ r old_html_str old_contents new_contents t d,
           client_get env u = Ok r ∧ is_success r = true
           ∧ cached_html m u = Some old_html_str
           ∧ html_parser old_html_str = Some old_contents
           ∧ html_parser (text r) = Some new_contents
           ∧ m' !! u = Some (EntryObject (mkCacheEntry (text r) t))
           ∧ url d = u
           ∧ differentiating_elements d
             = compare_html (document old_contents) (document new_contents)
           ∧ old_timestamp d = cached_timestamp m u
           ∧ (i < length slots → slots' !! i = Some (Some d))).
Proof.
  revert tick m slots. induction order as [|k order IH]; intros tick m slots Hrun.
  - injection Hrun as <- <-. exists m. split; [done |]. split; [done |].
    split; [done |]. split; [done |].
    split; intros *; by intros ?%elem_of_nil.
  - cbn [run_tasks] in Hrun. destruct (urls !! k) as [uk |] eqn:Hk.
    + destruct (diff_url html_parser env tick uk (CacheDict m)) as [[dk cache1] | exn] eqn:Hdiff;
        [| done].
      cbn in Hrun.
      apply diff_url_dict_returns in Hdiff
        as (rk & oldk & old_cs & new_cs & Hget & Hok & Hold & Hparse_old & Hparse_new & -> & ->).
      apply IH in Hrun as (m' & -> & Hlen & Hframe & Hslots & Hdistinct & Htasks).
      assert (∀ i, i ∈ order → urls !! i ≠ Some uk) as Hfresh.
      { intros i Hi Hu.
        destruct (Htasks i uk Hi Hu) as (? & ? & ? & ? & ? & ? & _ & _ & Hcached & _).
        rewrite (cached_html_entry_object _ uk (mkCacheEntry (text rk) (now_isoformat env tick)))
          in Hcached; [done | apply lookup_insert_eq]. }
      assert (k ∉ order) as Hk_fresh by (intros Hin; by apply (Hfresh k Hin)).
      exists m'. split; [done |]. split; [by rewrite Hlen, length_insert |].
      split; [| split; [| split]].
      * intros u Hu. rewrite Hframe.
        -- apply lookup_insert_ne. intros <-. apply (Hu k); [apply list_elem_of_here | done].
        -- intros i Hi. apply Hu. by apply list_elem_of_further.
      * intros k' Hk'. rewrite Hslots.
        -- apply list_lookup_insert_ne. intros <-. apply Hk'. apply list_elem_of_here.
        -- intros Hin. apply Hk'. by apply list_elem_of_further.
      * intros i j u [-> | Hi]%elem_of_cons [-> | Hj]%elem_of_cons Hui Huj; try done.
        -- exfalso. apply (Hfresh j Hj). congruence.
        -- exfalso. apply (Hfresh i Hi). congruence.
        -- by apply (Hdistinct i j u).
      * intros i u [-> | Hi]%elem_of_cons Hu.
        -- assert (u = uk) as -> by congruence.
           exists rk, oldk, old_cs, new_cs, (now_isoformat env tick),
             (mkUrlDiff uk
                (compare_html (document old_cs) (document new_cs))
                (cached_timestamp m uk) (now_isoformat env (S tick))).
           split; [done |]. split; [done |]. split; [done |].
           split; [done |]. split; [done |].
           split; [rewrite Hframe; [apply lookup_insert_eq | done] |].
           split; [done |]. split; [done |]. split; [done |].
           intros Hlt. rewrite Hslots by done. by apply list_lookup_insert_eq.
        -- assert (uk ≠ u) as Hne by (intros ->; by apply (Hfresh i Hi)).
           destruct (Htasks i u Hi Hu)
             as (r & old_str & old_cs' & new_cs' & t & d
                 & ? & ? & Hcached & ? & ? & ? & ? & ? & Hts & Hslot).
           exists r, old_str, old_cs', new_cs', t, d.
           rewrite cached_html_insert_ne in Hcached by done.
           rewrite cached_timestamp_insert_ne in Hts by done.
           rewrite length_insert in Hslot. done.
    + apply IH in Hrun as (m' & -> & Hlen & Hframe & Hslots & Hdistinct & Htasks).
      exists m'. split; [done |]. split; [done |]. split; [| split; [| split]].
      * intros u Hu. apply Hframe. intros i Hi. apply Hu. by apply list_elem_of_further.
      * intros k' Hk'. apply Hslots. intros Hin. apply Hk'. by apply list_elem_of_further.
      * intros i j u [-> | Hi]%elem_of_cons [-> | Hj]%elem_of_cons Hui Huj; try congruence.
        by apply (Hdistinct i j u).
      * intros i u [-> | Hi]%elem_of_cons Hu; [congruence |]. by apply Htasks.
Qed.

Lemma all_slots_filled {A} (l : list (option A)) :
  (∀ i, i < length l → ∃ x, l !! i = Some (Some x)) → ∃ k, l = Some <$> k.
Proof.
  induction l as [|o l IH]; intros Hall; [by exists [] |].
  destruct (Hall 0) as [x Hx]; [simpl; lia |]. injection Hx as ->.
  destruct IH as [k ->].
  { intros i Hi. apply (Hall (S i)). simpl. lia. }
  by exists (x :: k).
Qed.

Lemma omap_id_Some {A} (k : list A) : omap id (Some <$> k) = k.
Proof. induction k as [|x k IH]; [done |]. csimpl. by rewrite IH. Qed.

Lemma schedule_elem_of urls order i :
  schedule urls order → i ∈ order ↔ i < length urls.
Proof. unfold schedule. intros ->. rewrite elem_of_seq. lia. Qed.

(** What a gather that ends without an exception has done: the URLs are
    all different, the results are those of the URLs in the order of the
    list, and the cache has changed at the URLs of the list only. *)
Lemma gather_returns env urls order m ds cache' :
  schedule urls order →
  gather html_parser env urls order (CacheDict m) = Ok (ds, cache') →
  ∃ m', cache' = CacheDict m'
    ∧ length ds = length urls
    ∧ NoDup urls
    ∧ (∀ u, u ∉ urls → m' !! u = m !! u)
    ∧ (∀ i u, urls !! i = Some u →
         ∃ r old_html_str old_contents new_contents t d,
           client_get env u = Ok r ∧ is_success r = true
           ∧ cached_html m u = Some old_html_str
           ∧ html_parser old_html_str = Some old_contents
           ∧ html_parser (text r) = Some new_contents
           ∧ m' !! u = Some (EntryObject (mkCacheEntry (text r) t))
           ∧ url d = u
           ∧ differentiating_elements d
             = compare_html (document old_contents) (document new_contents)
           ∧ old_timestamp d = cached_timestamp m u
           ∧ ds !! i = Some d).
Proof.
  intros Hschedule. unfold gather.
  destruct (run_tasks _ _ _ _ _ _ _) as [[slots' cache1] | exn] eqn:Hrun; [| done].
  intros [= <- <-].
  apply run_tasks_returns in Hrun as (m' & -> & Hlen & Hframe & _ & Hdistinct & Htasks).
  rewrite length_replicate in Hlen.
  assert (∀ i u, urls !! i = Some u → i ∈ order) as Hin.
  { intros i u Hu. apply (schedule_elem_of urls order i Hschedule).
    by apply lookup_lt_Some in Hu. }
  destruct (all_slots_filled slots') as [k ->].
  { intros i Hi. rewrite Hlen in Hi. destruct (lookup_lt_is_Some_2 urls i Hi) as [u Hu].
    destruct (Htasks i u (Hin i u Hu) Hu)
      as (? & ? & ? & ? & ? & d & _ & _ & _ & _ & _ & _ & _ & _ & _ & Hslot).
    exists d. apply Hslot. by rewrite length_replicate. }
  rewrite omap_id_Some. rewrite length_fmap in Hlen.
  exists m'. split; [done |]. split; [done |]. split; [| split].
  - apply NoDup_alt. intros i j u Hi Hj. apply (Hdistinct i j u); eauto.
  - intros u Hu. apply Hframe. intros i _ Hi. apply Hu. by apply list_elem_of_lookup_2 in Hi.
  - intros i u Hu.
    destruct (Htasks i u (Hin i u Hu) Hu)
      as (r & old_str & old_cs & new_cs & t & d & ? & ? & ? & ? & ? & ? & ? & ? & ? & Hslot).
    exists r, old_str, old_cs, new_cs, t, d. repeat (split; [done |]).
    rewrite length_replicate in Hslot. apply lookup_lt_Some in Hu.
    specialize (Hslot Hu). rewrite list_lookup_fmap in Hslot.
    destruct (k !! i); by simplify_eq/=.
Qed.

(** The tasks all run to their end when they are for different URLs, their
    fetches succeed, the cache holds a markup for each of their URLs, and
    the parser accepts the cached and the fetched markups. *)
Lemma run_tasks_succeeds env urls order tick m slots :
  (∀ i j u, i ∈ order → j ∈ order → urls !! i = Some u → urls !! j = Some u → i = j) →
  NoDup order →
  (∀ i u, i ∈ order → urls !! i = Some u →
     (∃ r, client_get env u = Ok r ∧ is_success r = true ∧ is_Some (html_parser (text r)))
     ∧ (∃ old_html_str,
          cached_html m u = Some old_html_str ∧ is_Some (html_parser old_html_str))) →
  ∃ slots' cache',
    run_tasks html_parser env urls order tick (CacheDict m) slots = Ok (slots', cache').
Proof.
  revert tick m slots. induction order as [|k order IH]; intros tick m slots Hdistinct Hnodup Hgood.
  - by eexists _, _.
  - apply NoDup_cons in Hnodup as [Hk Hnodup]. cbn [run_tasks].
    destruct (urls !! k) as [uk |] eqn:Huk.
    + destruct (Hgood k uk)
        as [(r & Hget & Hok & [new_cs Hnew]) (old_str & Hold & [old_cs Hparse])];
        [apply list_elem_of_here | done |].
      assert (diff_url html_parser env tick uk (CacheDict m)
              = Ok (mkUrlDiff uk
                      (compare_html (document old_cs) (document new_cs))
                      (cached_timestamp m uk) (now_isoformat env (S tick)),
                    CacheDict (<[uk := EntryObject (mkCacheEntry (text r) (now_isoformat env tick))]> m)))
        as -> by (apply diff_url_dict_returns; by exists r, old_str, old_cs, new_cs).
      cbn. apply IH; [| done |].
      * intros i j u Hi Hj. apply Hdistinct; by apply list_elem_of_further.
      * intros i u Hi Hu.
        assert (uk ≠ u) as Hne.
        { intros ->. apply Hk. rewrite (Hdistinct k i u); try done;
            [apply list_elem_of_here | by apply list_elem_of_further]. }
        destruct (Hgood i u) as [Hfetch Hcached]; [by apply list_elem_of_further | done |].
        split; [done |]. by rewrite cached_html_insert_ne.
    + apply IH; [| done |].
      * intros i j u Hi Hj. apply Hdistinct; by apply list_elem_of_further.
      * intros i u Hi Hu. apply (Hgood i u); [by apply list_elem_of_further | done].
Qed.

Lemma gather_succeeds env urls order m :
  schedule urls order → NoDup urls →
  (∀ u, u ∈ urls →
     ∃ r, client_get env u = Ok r ∧ is_success r = true ∧ is_Some (html_parser (text r))) →
  (∀ u, u ∈ urls →
     ∃ old_html_str, cached_html m u = Some old_html_str ∧ is_Some (html_parser old_html_str)) →
  ∃ ds cache', gather html_parser env urls order (CacheDict m) = Ok (ds, cache').
Proof.
  intros Hschedule Hnodup Hfetch Hcached. unfold gather.
  destruct (run_tasks_succeeds env urls order 0 m (replicate (length urls) None))
    as (slots' & cache' & ->).
  - intros i j u _ _ Hi Hj. by apply (proj1 (NoDup_alt urls) Hnodup i j u).
  - unfold schedule in Hschedule. rewrite Hschedule. apply NoDup_seq.
  - intros i u _ Hu. apply list_elem_of_lookup_2 in Hu. split; [by apply Hfetch | by apply Hcached].
  - by eexists _, _.
Qed.

End cycle_runs.

(** * What a cycle does *)

Section cycle_extras.

Variable html_parser : string → option (list PageElement).
Variable json_dumps : json → string.
Variable json_loads : string → option json.

Implicit Types (env : Env) (m : gmap string cache_value) (cache : cache_obj).
Implicit Types (r : Response) (e : CacheEntry) (v : cache_value) (d : UrlDiff).

Lemma do_diff_returns env cache_file urls order ds cache_file' :
  do_diff html_parser json_dumps json_loads env cache_file urls order = (Ok ds, cache_file') →
  ∃ cache cache',
    load_cache json_loads cache_file = Ok cache
    ∧ gather html_parser env urls order cache = Ok (ds, cache')
    ∧ cache_file' = save_cache json_dumps cache'.
Proof.
  unfold do_diff. destruct (load_cache json_loads cache_file) as [cache | exn]; [| done].
  destruct (gather html_parser env urls order cache) as [[ds' cache'] | exn] eqn:Hgather;
    [| done].
  intros [= <- <-]. by exists cache, cache'.
Qed.

Lemma gather_not_a_dict env urls order j ds cache' :
  schedule urls order →
  gather html_parser env urls order (NotADict j) = Ok (ds, cache') →
  urls = [] ∧ ds = [] ∧ cache' = NotADict j.
Proof.
  intros Hschedule. destruct urls as [|u urls].
  - unfold schedule in Hschedule. apply Permutation_nil_r in Hschedule as ->.
    by intros [= <- <-].
  - unfold gather.
    destruct (run_tasks_not_a_dict html_parser env (u :: urls) order 0 j
                (replicate (length (u :: urls)) None) 0 u) as [exn ->]; [| done | done].
    apply (schedule_elem_of (u :: urls) order 0 Hschedule). simpl. lia.
Qed.



Lemma cached_html_reloaded_entry m u e :
  m !! u = Some (EntryObject e) →
  cached_html (FromJson <$> (encode_value <$> m)) u = Some (html e).
Proof.
  intros Hu. unfold cached_html. rewrite !lookup_fmap, Hu. cbn.
  by rewrite lookup_insert_eq.
Qed.

(** X7: [diff_url] returns exactly when the fetch succeeds, the cache
    holds a markup for the URL (no entry, or a dictionary whose [html] is
    absent or a string) and the parser accepts both the cached and the
    fetched markup; it then returns the comparison of the cached and the
    fetched document with the cached timestamp, and the cache with the
    entry of the URL replaced. *)
Theorem diff_url_returns_iff env (tick : nat) (u : string) m d cache' :
  diff_url html_parser env tick u (CacheDict m) = Ok (d, cache') ↔
  ∃ r old_html_str old_contents new_contents,
    client_get env u = Ok r ∧ is_success r = true
    ∧ cached_html m u = Some old_html_str
    ∧ html_parser old_html_str = Some old_contents
    ∧ html_parser (text r) = Some new_contents
    ∧ d = mkUrlDiff u
            (compare_html (document old_contents) (document new_contents))
            (cached_timestamp m u)
            (now_isoformat env (S tick))
    ∧ cache' = CacheDict (<[u := EntryObject (mkCacheEntry (text r) (now_isoformat env tick))]> m).
Proof. apply diff_url_dict_returns. Qed.

(** X8: when the cached content of a URL is the fetched content and the
    parser accepts it, [diff_url] returns no differentiating element and
    the cached timestamp as the old one, and still replaces the entry, with
    a new timestamp; when the parser rejects it, [diff_url] raises
    [ParserRejectedMarkup]. *)
Theorem diff_url_unchanged_page env (tick : nat) (u : string) m r
    (fields : gmap string json) :
  client_get env u = Ok r →
  is_success r = true →
  m !! u = Some (FromJson (JObj fields)) →
  fields !! "html" = Some (JStr (text r)) →
  diff_url html_parser env tick u (CacheDict m)
  = match html_parser (text r) with
    | Some _ =>
        Ok (mkUrlDiff u []
              (from_option old_time_of datetime_min (fields !! "timestamp"))
              (now_isoformat env (S tick)),
            CacheDict (<[u := EntryObject (mkCacheEntry (text r) (now_isoformat env tick))]> m))
    | None => Raise ParserRejectedMarkup
    end.
Proof.
  intros Hget Hok Hentry Hhtml.
  destruct (html_parser (text r)) as [contents |] eqn:Hparse.
  - rewrite (diff_url_dict_entry html_parser env tick u m r fields (text r) contents contents
               Hget Hok); [| by rewrite Hentry | by rewrite Hhtml | done | done].
    by rewrite compare_html_eq.
  - apply (diff_url_rejected_markup html_parser env tick u m r fields (text r) Hget Hok);
      [by rewrite Hentry | by rewrite Hhtml | by left].
Qed.

(** A failed fetch decides the exception of [diff_url] whatever the
    cache holds: the exception of the client when the request raises,
    [HTTPStatusError] when the status is not a success. *)
Theorem diff_url_fetch_exception env (tick : nat) (u : string) cache :
  (∀ exn, client_get env u = Raise exn →
     diff_url html_parser env tick u cache = Raise exn)
  ∧ (∀ r, client_get env u = Ok r → is_success r = false →
       diff_url html_parser env tick u cache = Raise HTTPStatusError).
Proof.
  unfold diff_url, raise_for_status. split.
  - by intros exn ->.
  - intros r -> Hstatus. simpl. by rewrite Hstatus.
Qed.

(** X9: whenever [diff_url] returns, with or without differences, the
    cache it leaves holds the fetched content, stamped with the first clock
    reading, for the URL, and what it held before for every other URL. *)
Theorem diff_url_cache_frame env (tick : nat) (u : string) cache d cache' :
  diff_url html_parser env tick u cache = Ok (d, cache') →
  ∃ m m' r,
    cache = CacheDict m ∧ cache' = CacheDict m' ∧ client_get env u = Ok r
    ∧ m' !! u = Some (EntryObject (mkCacheEntry (text r) (now_isoformat env tick)))
    ∧ ∀ u', u' ≠ u → m' !! u' = m !! u'.
Proof.
  intros (r & m & Hget & _ & -> & ->)%diff_url_returns.
  eexists m, _, r. split; [done |]. split; [done |]. split; [done |].
  split; [apply lookup_insert_eq |]. intros u' Hne. by apply lookup_insert_ne.
Qed.

(** X10: the results of a cycle come in the order of the URL list, one per
    URL, whatever the order in which the tasks were resumed. *)
Theorem do_diff_results_in_url_order env (cache_file cache_file' : file)
    (urls : list string) (order : list nat) (ds : list UrlDiff) :
  schedule urls order →
  do_diff html_parser json_dumps json_loads env cache_file urls order = (Ok ds, cache_file') →
  url <$> ds = urls.
Proof.
  intros Hschedule (cache & cache' & _ & Hgather & _)%do_diff_returns.
  destruct cache as [m | j].
  - apply gather_returns in Hgather as (m' & _ & Hlen & _ & _ & Htasks); [| done].
    apply list_eq. intros i. rewrite list_lookup_fmap.
    destruct (urls !! i) as [u |] eqn:Hu.
    + destruct (Htasks i u Hu)
        as (? & ? & ? & ? & ? & d & _ & _ & _ & _ & _ & _ & Hurl & _ & _ & ->).
      simpl. by rewrite Hurl.
    + apply lookup_ge_None in Hu. rewrite <- Hlen in Hu. apply lookup_ge_None in Hu.
      by rewrite Hu.
  - by apply gather_not_a_dict in Hgather as (-> & -> & _).
Qed.

(** X11: in a cycle that returns, the result of each URL holds the
    comparison of the document parsed from the content the cache file held
    for the URL with the document parsed from the fetched content, and the
    timestamp the cache file held. *)
Theorem do_diff_results env (cache_file cache_file' : file) (urls : list string)
    (order : list nat) m (ds : list UrlDiff) (i : nat) (u : string) d :
  schedule urls order →
  load_cache json_loads cache_file = Ok (CacheDict m) →
  do_diff html_parser json_dumps json_loads env cache_file urls order = (Ok ds, cache_file') →
  urls !! i = Some u → ds !! i = Some d →
  ∃ r old_html_str old_contents new_contents,
    client_get env u = Ok r ∧ is_success r = true
    ∧ cached_html m u = Some old_html_str
    ∧ html_parser old_html_str = Some old_contents
    ∧ html_parser (text r) = Some new_contents
    ∧ differentiating_elements d
      = compare_html (document old_contents) (document new_contents)
    ∧ old_timestamp d = cached_timestamp m u.
Proof.
  intros Hschedule Hload (cache & cache' & Hload' & Hgather & _)%do_diff_returns Hu Hd.
  rewrite Hload in Hload'. injection Hload' as <-.
  apply gather_returns in Hgather as (m' & _ & _ & _ & _ & Htasks); [| done].
  destruct (Htasks i u Hu)
    as (r & old_str & old_cs & new_cs & t & d' & ? & ? & ? & ? & ? & _ & _ & ? & ? & Hd').
  rewrite Hd in Hd'. injection Hd' as <-. by exists r, old_str, old_cs, new_cs.
Qed.


(** X13: a URL listed twice ends the cycle with an exception and leaves
    the cache file as it was, even when every fetch succeeds. *)
Theorem do_diff_duplicate_url_aborts env (cache_file : file) (urls : list string)
    (order : list nat) (i j : nat) (u : string) :
  schedule urls order →
  i ≠ j → urls !! i = Some u → urls !! j = Some u →
  ∃ exn,
    do_diff html_parser json_dumps json_loads env cache_file urls order
    = (Raise exn, cache_file).
Proof.
  intros Hschedule Hne Hi Hj.
  destruct (do_diff html_parser json_dumps json_loads env cache_file urls order)
    as [[ds | exn] cache_file'] eqn:Hrun.
  - exfalso.
    apply do_diff_returns in Hrun as (cache & cache' & _ & Hgather & _).
    destruct cache as [m | doc].
    + apply gather_returns in Hgather as (m' & _ & _ & Hnodup & _); [| done].
      apply Hne. by apply (proj1 (NoDup_alt urls) Hnodup i j u).
    + apply gather_not_a_dict in Hgather as (-> & _); [done | done].
  - exists exn. revert Hrun. unfold do_diff.
    destruct (load_cache json_loads cache_file) as [cache | exn']; [| by intros [= <- <-]].
    destruct (gather html_parser env urls order cache) as [[ds' cache'] | exn']; [done |].
    by intros [= <- <-].
Qed.

(** X14: when the cache file holds a JSON document that is not an object,
    every cycle over at least one URL ends with an exception and leaves the
    file as it is. *)
Theorem do_diff_not_a_dict_aborts env (cache_file : file) (urls : list string)
    (order : list nat) (j : json) :
  schedule urls order →
  urls ≠ [] →
  load_cache json_loads cache_file = Ok (NotADict j) →
  ∃ exn,
    do_diff html_parser json_dumps json_loads env cache_file urls order
    = (Raise exn, cache_file).
Proof.
  intros Hschedule Hurls Hload. unfold do_diff. rewrite Hload.
  destruct (gather html_parser env urls order (NotADict j)) as [[ds cache'] | exn] eqn:Hgather.
  - by apply gather_not_a_dict in Hgather as (-> & _).
  - by exists exn.
Qed.

(** A cycle over no URL returns no result and writes back the cache
    it loaded. *)
Theorem do_diff_no_urls env (cache_file : file) (order : list nat) cache :
  schedule [] order →
  load_cache json_loads cache_file = Ok cache →
  do_diff html_parser json_dumps json_loads env cache_file [] order
  = (Ok [], save_cache json_dumps cache).
Proof.
  unfold schedule. intros ->%Permutation_nil_r Hload. unfold do_diff. by rewrite Hload.
Qed.


(** X16: a cycle that follows a cycle that returned, over the same URLs
    and with the same pages fetched, returns and reports no difference for
    any URL. *)
Theorem do_diff_next_cycle_no_change (env1 env2 : Env) (cache_file cache_file' : file)
    (urls : list string) (order1 order2 : list nat) (ds : list UrlDiff) :
  (∀ j, json_loads (json_dumps j) = Some j) →
  schedule urls order1 → schedule urls order2 →
  do_diff html_parser json_dumps json_loads env1 cache_file urls order1 = (Ok ds, cache_file') →
  (∀ u, u ∈ urls → client_get env2 u = client_get env1 u) →
  ∃ ds' cache_file'',
    do_diff html_parser json_dumps json_loads env2 cache_file' urls order2
    = (Ok ds', cache_file'')
    ∧ Forall (λ d, differentiating_elements d = []) ds'.
Proof.
  intros Hlaw Hschedule1 Hschedule2 (cache & cache' & _ & Hgather & ->)%do_diff_returns Hsame.
  destruct cache as [m | j].
  - apply gather_returns in Hgather as (m1 & -> & _ & Hnodup & _ & Htasks); [| done].
    set (m2 := FromJson <$> (encode_value <$> m1)).
    assert (load_cache json_loads (save_cache json_dumps (CacheDict m1)) = Ok (CacheDict m2))
      as Hload by (by apply load_save_cache).
    assert (∀ u, u ∈ urls →
              ∃ r, client_get env2 u = Ok r ∧ is_success r = true
                   ∧ cached_html m2 u = Some (text r)
                   ∧ is_Some (html_parser (text r))) as Hpages.
    { intros u Hu. destruct (proj1 (list_elem_of_lookup urls u) Hu) as [i Hi].
      destruct (Htasks i u Hi)
        as (r & _ & _ & new_cs & t & _ & Hget & Hok & _ & _ & Hnew & Hentry & _).
      exists r. rewrite (Hsame u Hu). split; [done |]. split; [done |].
      split; [| by exists new_cs].
      unfold m2. by rewrite (cached_html_reloaded_entry m1 u _ Hentry). }
    destruct (gather_succeeds html_parser env2 urls order2 m2 Hschedule2 Hnodup)
      as (ds' & cache'' & Hgather2).
    { intros u Hu. destruct (Hpages u Hu) as (r & ? & ? & _ & ?). by exists r. }
    { intros u Hu. destruct (Hpages u Hu) as (r & _ & _ & ? & ?). by exists (text r). }
    exists ds', (save_cache json_dumps cache''). unfold do_diff. rewrite Hload, Hgather2.
    split; [done |].
    apply gather_returns in Hgather2 as (m3 & _ & Hlen & _ & _ & Htasks2); [| done].
    apply Forall_lookup. intros i d Hd.
    destruct (lookup_lt_is_Some_2 urls i) as [u Hu];
      [rewrite <- Hlen; by apply lookup_lt_Some in Hd |].
    destruct (Htasks2 i u Hu)
      as (r2 & old_str & old_cs & new_cs & _ & d'
          & Hget2 & _ & Hold & Hparse_old & Hparse_new & _ & _ & Hdiff & _ & Hd').
    rewrite Hd in Hd'. injection Hd' as <-.
    destruct (Hpages u) as (r & Hget & _ & Hcached & _); [by apply list_elem_of_lookup_2 in Hu |].
    rewrite Hget in Hget2. injection Hget2 as <-.
    rewrite Hcached in Hold. injection Hold as <-.
    rewrite Hdiff. apply compare_html_eq. congruence.
  - apply gather_not_a_dict in Hgather as (-> & -> & ->); [| done].
    unfold schedule in Hschedule2. apply Permutation_nil_r in Hschedule2 as ->.
    exists [], (save_cache json_dumps (cache_of_json j)).
    split; [| constructor].
    unfold do_diff, load_cache, save_cache. simpl. by rewrite Hlaw.
Qed.

End cycle_extras.

(** * The report, the cache file and the wait *)

Section report_facts.

Variable str_tag : Tag → string.
Variable str_old_time : old_time → string.

Lemma url_diff_lines_nil (d : UrlDiff) :
  url_diff_lines str_tag str_old_time d = [] ↔ differentiating_elements d = [].
Proof. unfold url_diff_lines. by destruct (differentiating_elements d). Qed.

(** X17: the report is empty exactly when no URL has a differentiating
    element: a URL without a difference prints nothing, a URL with one
    always prints. *)
Theorem report_empty_iff (url_diffs : list UrlDiff) :
  report str_tag str_old_time url_diffs = []
  ↔ Forall (λ d, differentiating_elements d = []) url_diffs.
Proof.
  unfold report. induction url_diffs as [|d ds IH]; [by split |].
  change ((d :: ds) ≫= url_diff_lines str_tag str_old_time)
    with (url_diff_lines str_tag str_old_time d ++ (ds ≫= url_diff_lines str_tag str_old_time)).
  rewrite Forall_cons, <- IH, <- url_diff_lines_nil. split.
  - intros H. by apply app_eq_nil in H.
  - by intros [-> ->].
Qed.

End report_facts.

Section cache_file_facts.

Variable html_parser : string → option (list PageElement).
Variable json_dumps : json → string.
Variable json_loads : string → option json.

Lemma encode_cache_of_json (cache : cache_obj) :
  encode_cache (cache_of_json (encode_cache cache)) = encode_cache cache.
Proof.
  assert (∀ fields : gmap string json,
            encode_cache (cache_of_json (JObj fields)) = JObj fields) as Hobj.
  { intros fields. cbn. f_equal. rewrite <- map_fmap_compose.
    rewrite <- (map_fmap_id fields) at 2. by apply map_fmap_ext. }
  destruct cache as [m | j]; [apply Hobj |].
  destruct j; try done. apply Hobj.
Qed.

(** X18: a cycle over no URL leaves a cache file the program wrote with
    the text it had. *)
Theorem do_diff_no_urls_keeps_file (env : Env) (cache : cache_obj) (order : list nat) :
  (∀ j, json_loads (json_dumps j) = Some j) →
  schedule [] order →
  do_diff html_parser json_dumps json_loads env (save_cache json_dumps cache) [] order
  = (Ok [], save_cache json_dumps cache).
Proof.
  unfold schedule. intros Hlaw ->%Permutation_nil_r.
  unfold do_diff, load_cache, save_cache. simpl. rewrite Hlaw. simpl.
  by rewrite encode_cache_of_json.
Qed.

End cache_file_facts.

(** X19: the seconds [main] sleeps are those of the interval only for an
    interval of less than a day: they are always less than a day, they are
    the same for an interval and for that interval plus a day, and they are
    0 for an interval of whole days. *)
Theorem timedelta_seconds_wrap :
  (∀ minutes s, timedelta_minutes_seconds minutes = Some s → (0 ≤ s < 86400)%Z)
  ∧ (∀ minutes, (0 ≤ minutes < 1440)%Z →
       timedelta_minutes_seconds minutes = Some (60 * minutes)%Z)
  ∧ (∀ minutes s s',
       timedelta_minutes_seconds minutes = Some s →
       timedelta_minutes_seconds (minutes + 1440) = Some s' → s' = s)
  ∧ (∀ days, (-999999999 ≤ days ≤ 999999999)%Z →
       timedelta_minutes_seconds (1440 * days) = Some 0%Z).
Proof.
  unfold timedelta_minutes_seconds. cbn zeta. split; [| split; [| split]].
  - intros minutes s. case_bool_decide; [| done]. intros [= <-].
    apply Z.mod_pos_bound. lia.
  - intros minutes Hrange. rewrite bool_decide_eq_true_2.
    + f_equal. apply Z.mod_small. lia.
    + rewrite Z.div_small by lia. lia.
  - intros minutes s s'. repeat case_bool_decide; try done. intros [= <-] [= <-].
    replace (60 * (minutes + 1440))%Z with (60 * minutes + 1 * 86400)%Z by lia.
    apply Z_mod_plus_full.
  - intros days Hrange.
    replace (60 * (1440 * days))%Z with (days * 86400)%Z by lia.
    rewrite Z.div_mul, Z.mod_mul by lia. by rewrite bool_decide_eq_true_2.
Qed.

Lemma timedelta_seconds_wrap_witness :
  timedelta_minutes_seconds 30 = Some 1800%Z
  ∧ timedelta_minutes_seconds 1440 = Some 0%Z.
Proof.
  split.
  - apply (proj1 (proj2 timedelta_seconds_wrap) 30%Z). lia.
  - apply (proj2 (proj2 (proj2 timedelta_seconds_wrap)) 1%Z). lia.
Defined.

Lemma do_diff_no_urls_keeps_file_witness :
  do_diff mini_html_parser mini_json_dumps mini_json_loads (sample_env two_pages)
    (save_cache mini_json_dumps
       (CacheDict {["http://a" := EntryObject (mkCacheEntry hello_page (sample_clock 0))]}))
    [] []
  = (Ok [],
     save_cache mini_json_dumps
       (CacheDict {["http://a" := EntryObject (mkCacheEntry hello_page (sample_clock 0))]})).
Proof.
  apply (do_diff_no_urls_keeps_file mini_html_parser mini_json_dumps mini_json_loads
           (sample_env two_pages)
           (CacheDict {["http://a" := EntryObject (mkCacheEntry hello_page (sample_clock 0))]})
           []).
  - apply mini_json_loads_dumps.
  - unfold schedule. reflexivity.
Defined.

(** * Cycles in the sample world *)

Lemma diff_url_unchanged_page_witness :
  diff_url mini_html_parser (sample_env two_pages) 4 "http://a"
    (CacheDict {["http://a" := FromJson (JObj hello_fields)]})
  = match mini_html_parser hello_page with
    | Some _ =>
        Ok (mkUrlDiff "http://a" []
              (from_option old_time_of datetime_min (hello_fields !! "timestamp"))
              (sample_clock 5),
            CacheDict (<["http://a" := EntryObject (mkCacheEntry hello_page (sample_clock 4))]>
                         {["http://a" := FromJson (JObj hello_fields)]}))
    | None => Raise ParserRejectedMarkup
    end.
Proof.
  apply (diff_url_unchanged_page mini_html_parser (sample_env two_pages) 4 "http://a"
           {["http://a" := FromJson (JObj hello_fields)]}
           (mkResponse 200 hello_page) hello_fields); reflexivity.
Defined.

Lemma diff_url_cache_frame_witness :
  ∃ m m' r,
    CacheDict ∅ = CacheDict m
    ∧ CacheDict (<["http://a" := EntryObject (mkCacheEntry hello_page (sample_clock 0))]> ∅)
      = CacheDict m'
    ∧ client_get (sample_env two_pages) "http://a" = Ok r
    ∧ m' !! "http://a"
      = Some (EntryObject (mkCacheEntry (text r) (now_isoformat (sample_env two_pages) 0)))
    ∧ ∀ u', u' ≠ "http://a" → m' !! u' = m !! u'.
Proof.
  apply (diff_url_cache_frame mini_html_parser (sample_env two_pages) 0 "http://a" (CacheDict ∅)
           (mkUrlDiff "http://a"
              [mkDifferentiatingElement
                 (document [])
                 (document [inr (mkTag "html" ∅ [inr (mkTag "body" ∅ [inl "hi"])])])]
              datetime_min (sample_clock 1))
           (CacheDict (<["http://a" := EntryObject (mkCacheEntry hello_page (sample_clock 0))]> ∅))).
  vm_compute. reflexivity.
Defined.

Lemma do_diff_results_in_url_order_witness :
  ∃ ds cache_file',
    do_diff mini_html_parser mini_json_dumps mini_json_loads (sample_env two_pages)
      Missing two_urls [1; 0] = (Ok ds, cache_file')
    ∧ url <$> ds = two_urls.
Proof.
  eexists _, _. split; [vm_compute; reflexivity |].
  eapply (do_diff_results_in_url_order mini_html_parser mini_json_dumps mini_json_loads
            (sample_env two_pages) Missing _ two_urls [1; 0]).
  - unfold schedule. apply Permutation_swap.
  - vm_compute. reflexivity.
Defined.

Lemma do_diff_results_witness :
  ∃ ds cache_file' d,
    do_diff mini_html_parser mini_json_dumps mini_json_loads (sample_env two_pages)
      hello_file two_urls [1; 0] = (Ok ds, cache_file')
    ∧ ds !! 0 = Some d
    ∧ ∃ r old_html_str old_contents new_contents,
        client_get (sample_env two_pages) "http://a" = Ok r ∧ is_success r = true
        ∧ cached_html {["http://a" := FromJson (JObj hello_fields)]} "http://a"
          = Some old_html_str
        ∧ mini_html_parser old_html_str = Some old_contents
        ∧ mini_html_parser (text r) = Some new_contents
        ∧ differentiating_elements d
          = compare_html (document old_contents) (document new_contents)
        ∧ old_timestamp d
          = cached_timestamp {["http://a" := FromJson (JObj hello_fields)]} "http://a".
Proof.
  eexists _, _, _. split; [vm_compute; reflexivity |]. split; [reflexivity |].
  eapply (do_diff_results mini_html_parser mini_json_dumps mini_json_loads
            (sample_env two_pages) hello_file _ two_urls [1; 0]
            {["http://a" := FromJson (JObj hello_fields)]} _ 0 "http://a").
  - unfold schedule. apply Permutation_swap.
  - vm_compute. reflexivity.
  - vm_compute. reflexivity.
  - reflexivity.
  - reflexivity.
Defined.


Lemma do_diff_duplicate_url_aborts_witness :
  ∃ exn,
    do_diff mini_html_parser mini_json_dumps mini_json_loads (sample_env two_pages)
      Missing ["http://a"; "http://a"] [1; 0]
    = (Raise exn, Missing).
Proof.
  apply (do_diff_duplicate_url_aborts mini_html_parser mini_json_dumps mini_json_loads
           (sample_env two_pages) Missing ["http://a"; "http://a"] [1; 0] 0 1 "http://a").
  - unfold schedule. apply Permutation_swap.
  - lia.
  - reflexivity.
  - reflexivity.
Defined.

Lemma do_diff_not_a_dict_aborts_witness :
  ∃ exn,
    do_diff mini_html_parser mini_json_dumps mini_json_loads (sample_env two_pages)
      (Content "[]") two_urls [1; 0]
    = (Raise exn, Content "[]").
Proof.
  apply (do_diff_not_a_dict_aborts mini_html_parser mini_json_dumps mini_json_loads
           (sample_env two_pages) (Content "[]") two_urls [1; 0] (JArr [])).
  - unfold schedule. apply Permutation_swap.
  - discriminate.
  - vm_compute. reflexivity.
Defined.

Lemma do_diff_no_urls_witness :
  do_diff mini_html_parser mini_json_dumps mini_json_loads (sample_env two_pages)
    Missing [] []
  = (Ok [], save_cache mini_json_dumps (CacheDict ∅)).
Proof.
  apply (do_diff_no_urls mini_html_parser mini_json_dumps mini_json_loads
           (sample_env two_pages) Missing [] (CacheDict ∅)).
  - unfold schedule. reflexivity.
  - reflexivity.
Defined.


Lemma do_diff_next_cycle_no_change_witness :
  ∃ ds' cache_file'',
    do_diff mini_html_parser mini_json_dumps mini_json_loads (sample_env two_pages)
      (do_diff mini_html_parser mini_json_dumps mini_json_loads (sample_env two_pages)
         Missing two_urls [1; 0]).2
      two_urls [0; 1]
    = (Ok ds', cache_file'')
    ∧ Forall (λ d, differentiating_elements d = []) ds'.
Proof.
  eapply (do_diff_next_cycle_no_change mini_html_parser mini_json_dumps mini_json_loads
            (sample_env two_pages) (sample_env two_pages) Missing _ two_urls [1; 0] [0; 1]).
  - apply mini_json_loads_dumps.
  - unfold schedule. apply Permutation_swap.
  - unfold schedule. reflexivity.
  - vm_compute. reflexivity.
  - reflexivity.
Defined.
